(** * Cody: the streaming response pipeline, the conversation store,
      the process runner and the command-alias resolver

    A shallow embedding of
    - [CodeExtractor] and [sendMessage]   (src/utils/config.ts),
    - [CodingAgent] and [APIClient.chatStream] (src/core/agent.ts),
    - [runCommand]                        (src/core/tools.ts),
    - [commandAliases] and [resolveCommand] (the alias module).

    JavaScript strings are modelled as lists of code units restricted to
    the range U+0000..U+00FF ([list ascii]); every delimiter the program
    looks for (backtick, colon, newline, space) lies in that range. *)

From Stdlib Require Import ZArith Ascii String.
From stdpp Require Import base list strings gmap.

Local Open Scope Z_scope.
Local Open Scope list_scope.

(* ===================================================================== *)
(** ** JavaScript string primitives used by the program                  *)
(* ===================================================================== *)

Module JS.

Definition jstring := list ascii.

(** A literal. *)
Definition str (s : string) : jstring := list_ascii_of_string s.

Definition LF : ascii := ascii_of_nat 10.
Definition TAB : ascii := ascii_of_nat 9.
Definition SP : ascii := ascii_of_nat 32.
Definition BACKTICK : ascii := ascii_of_nat 96.
Definition COLON : ascii := ascii_of_nat 58.

Definition code_unit (c : ascii) : nat := nat_of_ascii c.

(** Truthiness of a string: every string but the empty one. *)
Definition truthy_str (s : jstring) : bool :=
  match s with [] => false | _ :: _ => true end.

(** [a || b] on strings. *)
Definition or_str (a b : jstring) : jstring :=
  if truthy_str a then a else b.

(** Relative index of [String.prototype.slice]: a negative index counts
    from the end, and the result is clamped to [0, len]. *)
Definition rel_index (len : nat) (i : Z) : nat :=
  if i <? 0 then Z.to_nat (Z.max 0 (Z.of_nat len + i))
  else Nat.min (Z.to_nat i) len.

(** [s.slice(start)] and [s.slice(start, end)]. *)
Definition slice (s : jstring) (start : Z) (end_ : option Z) : jstring :=
  let len := length s in
  let from := rel_index len start in
  let to := match end_ with
            | None => len
            | Some e => rel_index len e
            end in
  take (to - from) (drop from s).

(** [s.startsWith(p)]. *)
Fixpoint startsWith (s p : jstring) {struct p} : bool :=
  match p, s with
  | [], _ => true
  | _ :: _, [] => false
  | x :: p', c :: s' => bool_decide (c = x) && startsWith s' p'
  end.

(** Position of the first occurrence of [p] in [s], if any. *)
Fixpoint find_sub (s p : jstring) : option nat :=
  if startsWith s p then Some 0%nat
  else match s with
       | [] => None
       | _ :: s' => S <$> find_sub s' p
       end.

(** [s.indexOf(p)]: -1 when [p] does not occur. *)
Definition indexOf (s p : jstring) : Z :=
  match find_sub s p with
  | Some i => Z.of_nat i
  | None => -1
  end.

(** White space and line terminators of ECMAScript, within U+00FF:
    TAB, LF, VT, FF, CR, SP and NBSP.  It is the class of [\s] and the
    set [trim] strips. *)
Definition is_space (c : ascii) : bool :=
  let n := code_unit c in
  ((9 <=? n) && (n <=? 13) || (n =? 32) || (n =? 160))%nat.

Fixpoint trimStart (s : jstring) : jstring :=
  match s with
  | c :: s' => if is_space c then trimStart s' else s
  | [] => []
  end.

Definition trimEnd (s : jstring) : jstring := rev (trimStart (rev s)).

(** [s.trim()]. *)
Definition trim (s : jstring) : jstring := trimEnd (trimStart s).

(** The class [\w] of a regular expression without the unicode flag. *)
Definition is_word (c : ascii) : bool :=
  let n := code_unit c in
  ((48 <=? n) && (n <=? 57) || (65 <=? n) && (n <=? 90)
   || (97 <=? n) && (n <=? 122) || (n =? 95))%nat.

(** [s.toLowerCase()] on U+0000..U+00FF: A-Z, and U+00C0..U+00DE but the
    multiplication sign U+00D7, move up by 32. *)
Definition lower_char (c : ascii) : ascii :=
  let n := code_unit c in
  if ((65 <=? n) && (n <=? 90)
      || (192 <=? n) && (n <=? 222) && negb (n =? 215))%nat
  then ascii_of_nat (n + 32) else c.

Definition toLowerCase (s : jstring) : jstring := map lower_char s.

(** [s.split(sep)] for a separator of one code unit: always at least one
    part. *)
Fixpoint split (s : jstring) (sep : ascii) : list jstring :=
  match s with
  | [] => [[]]
  | c :: s' =>
      if bool_decide (c = sep) then [] :: split s' sep
      else match split s' sep with
           | h :: t => (c :: h) :: t
           | [] => [[c]]
           end
  end.

(** [parts.join(sep)] for a separator of one code unit. *)
Fixpoint join (parts : list jstring) (sep : ascii) : jstring :=
  match parts with
  | [] => []
  | [p] => p
  | p :: rest => p ++ sep :: join rest sep
  end.

(** The longest prefix whose code units satisfy [p], and the rest: how a
    greedy character class consumes its input. *)
Fixpoint span (p : ascii -> bool) (s : jstring) : jstring * jstring :=
  match s with
  | c :: s' =>
      if p c then let '(a, b) := span p s' in (c :: a, b) else ([], s)
  | [] => ([], [])
  end.

End JS.

Import JS.

(* ===================================================================== *)
(** ** The incremental code-block extractor (config.ts)                  *)
(* ===================================================================== *)

Module PendingFile.
(** [interface PendingFile]. *)
Record t := mk { filename : jstring; content : jstring; fullPath : jstring }.
End PendingFile.

Module Extractor.

(** The result of [String.prototype.match] without the global flag: the
    matched text and the two capture groups. *)
Record RegExpMatch := { m0 : jstring; m1 : jstring; m2 : jstring }.

Definition fence3 : jstring := [BACKTICK; BACKTICK; BACKTICK].

Definition not_LF (c : ascii) : bool := negb (bool_decide (c = LF)).

(** One attempt of the pattern
      three backticks, (\w+), a colon, ([^\n]+), a newline
    at the start of [s].  Each greedy class is followed in the pattern by
    a code unit outside the class, so giving back part of a run can never
    make the attempt succeed: the attempt takes the longest runs. *)
Definition fence_at (s : jstring) : option RegExpMatch :=
  if startsWith s fence3 then
    let '(tag, r1) := span is_word (drop 3 s) in
    match tag, r1 with
    | _ :: _, c :: r2 =>
        if bool_decide (c = COLON) then
          let '(p, r3) := span not_LF r2 in
          match p, r3 with
          | _ :: _, _ :: _ =>
              Some {| m0 := fence3 ++ tag ++ COLON :: p ++ [LF];
                      m1 := tag; m2 := p |}
          | _, _ => None
          end
        else None
    | _, _ => None
    end
  else None.

(** [s.match(re)]: the attempt at the leftmost position that succeeds. *)
Fixpoint regex_match (s : jstring) : option RegExpMatch :=
  match fence_at s with
  | Some m => Some m
  | None => match s with
            | [] => None
            | _ :: s' => regex_match s'
            end
  end.

(** The fields of [class CodeExtractor]. *)
Record CodeExtractor := {
  buffer : jstring;
  inBlock : bool;
  filename : jstring;
  code : jstring;
  dir : jstring
}.

(** [new CodeExtractor(dir)]. *)
Definition new_CodeExtractor (d : jstring) : CodeExtractor :=
  {| buffer := []; inBlock := false; filename := []; code := []; dir := d |}.

(** How a stream handed to the consumer ends. *)
Inductive StreamEnd := Completed | Failed (err : jstring).

(** The module-level state the extractor and [sendMessage] write to: the
    global [pendingFiles] and the response text echoed to the terminal. *)
Record Globals := { pendingFiles : list PendingFile.t; stdout : jstring }.

Section WithPath.
(** Node's [path.isAbsolute] and [path.join]. *)
Variable path_isAbsolute : jstring -> bool.
Variable path_join : jstring -> jstring -> jstring.

Definition pending_of (e_dir fname body : jstring) : PendingFile.t :=
  {| PendingFile.filename := fname;
     PendingFile.content := trim body;
     PendingFile.fullPath :=
       if path_isAbsolute fname then fname else path_join e_dir fname |}.

(** [CodeExtractor.process]; the global [pendingFiles] is threaded. *)
Definition process (e : CodeExtractor) (chunk : jstring)
    (pending : list PendingFile.t) : CodeExtractor * list PendingFile.t :=
  let buf := buffer e ++ chunk in
  if negb (inBlock e) then
    match regex_match buf with
    | Some m =>
        ({| buffer := slice buf (indexOf buf (m0 m) + Z.of_nat (length (m0 m))) None;
            inBlock := true;
            filename := trim (m2 m);
            code := [];
            dir := dir e |}, pending)
    | None =>
        ({| buffer := if (100 <? length buf)%nat then slice buf (-100) None else buf;
            inBlock := false;
            filename := filename e;
            code := code e;
            dir := dir e |}, pending)
    end
  else
    let end_ := indexOf buf fence3 in
    if negb (end_ =? -1) then
      let code' := code e ++ slice buf 0 (Some end_) in
      ({| buffer := slice buf (end_ + 3) None;
          inBlock := false;
          filename := filename e;
          code := code';
          dir := dir e |},
       pending ++ [pending_of (dir e) (filename e) code'])
    else if (10 <? length buf)%nat then
      ({| buffer := slice buf (-10) None;
          inBlock := true;
          filename := filename e;
          code := code e ++ slice buf 0 (Some (-10));
          dir := dir e |}, pending)
    else
      ({| buffer := buf;
          inBlock := true;
          filename := filename e;
          code := code e;
          dir := dir e |}, pending).

(** [CodeExtractor.flush]. *)
Definition flush (e : CodeExtractor) (pending : list PendingFile.t)
    : CodeExtractor * list PendingFile.t :=
  ({| buffer := []; inBlock := false; filename := []; code := [];
      dir := dir e |},
   if inBlock e && truthy_str (code e)
   then pending ++ [pending_of (dir e) (filename e) (code e ++ buffer e)]
   else pending).

(** One round of the loop of [sendMessage]: the chunk is written to the
    terminal, then handed to the extractor. *)
Definition consume (st : CodeExtractor * Globals) (chunk : jstring)
    : CodeExtractor * Globals :=
  let '(ext, g) := st in
  let out := stdout g ++ chunk in
  let '(ext', pf) := process ext chunk (pendingFiles g) in
  (ext', {| pendingFiles := pf; stdout := out |}).

(** The streaming part of [sendMessage]: a fresh extractor, the loop
    over the chunks, and [flush] on both ways out of the [try].  The
    result carries the error that is thrown again, if any.  The label
    written before the response and the blank line after it are not
    part of [stdout] here. *)
Definition sendMessage (currentDir : jstring) (chunks : list jstring)
    (ending : StreamEnd) (g : Globals) : Globals * option jstring :=
  let ext := new_CodeExtractor currentDir in
  let '(ext1, g1) := fold_left consume chunks (ext, g) in
  let '(_, pf) := flush ext1 (pendingFiles g1) in
  ({| pendingFiles := pf; stdout := stdout g1 |},
   match ending with
   | Completed => None
   | Failed err => Some err
   end).

(** What a file pushed by an extractor working in [d] looks like: its
    content has white space at neither end, and its full path is its name
    when that is absolute, and the name joined to [d] otherwise. *)
Definition pushed_by (d : jstring) (f : PendingFile.t) : Prop :=
  trim (PendingFile.content f) = PendingFile.content f /\
  PendingFile.fullPath f
  = if path_isAbsolute (PendingFile.filename f) then PendingFile.filename f
    else path_join d (PendingFile.filename f).

End WithPath.

End Extractor.

(* ===================================================================== *)
(** ** The conversation store and the session turn (agent.ts)            *)
(* ===================================================================== *)

Module Agent.

Inductive Role := system | user | assistant.

(** [interface Message].  A message is an object on the heap: [ref] is
    its identity, the thing [Array.prototype.indexOf] compares. *)
Record Message := { ref : nat; role : Role; content : jstring }.

(** The fields of [class CodingAgent], with the next free object
    identity of the heap. *)
Record CodingAgent := {
  conversationHistory : list Message;
  pendingUserMessage : option Message;
  fresh : nat
}.

(** How the generator [chatStream] ends after its chunks. *)
Inductive StreamEnd := Completed | Failed (err : jstring).

(** [APIClient] as the agent sees it: [chat] returns the response or
    throws, [chatStream] yields chunks and then completes or throws.
    Both receive the history array. *)
Record APIClient := {
  chat : list Message -> jstring + jstring;
  chatStream : list Message -> list jstring * StreamEnd
}.

(** [new CodingAgent(config)]. *)
Definition new_CodingAgent (SYSTEM_PROMPT : jstring) : CodingAgent :=
  {| conversationHistory := [ {| ref := 0; role := system; content := SYSTEM_PROMPT |} ];
     pendingUserMessage := None;
     fresh := 1 |}.

(** [history.indexOf(m)]: the first position holding the same object. *)
Fixpoint indexOf_obj (h : list Message) (m : Message) : Z :=
  match h with
  | [] => -1
  | x :: h' =>
      if bool_decide (ref x = ref m) then 0
      else let i := indexOf_obj h' m in
           if i =? -1 then -1 else i + 1
  end.

(** [history.splice(idx, 1)] for an index in range. *)
Definition splice1 (h : list Message) (idx : Z) : list Message :=
  delete (Z.to_nat idx) h.

(** [history.pop()]: the array without its last element. *)
Definition pop (h : list Message) : list Message := removelast h.

(** [CodingAgent.send]: the new state, and the response ([inr]) or the
    error thrown again ([inl]). *)
Definition send (client : APIClient) (a : CodingAgent) (userMessage : jstring)
    : CodingAgent * (jstring + jstring) :=
  let userMsg := {| ref := fresh a; role := user; content := userMessage |} in
  let h1 := conversationHistory a ++ [userMsg] in
  match chat client h1 with
  | inr response =>
      ({| conversationHistory :=
            h1 ++ [ {| ref := S (fresh a); role := assistant; content := response |} ];
          pendingUserMessage := pendingUserMessage a;
          fresh := S (S (fresh a)) |}, inr response)
  | inl error =>
      ({| conversationHistory := pop h1;
          pendingUserMessage := pendingUserMessage a;
          fresh := S (fresh a) |}, inl error)
  end.

(** [CodingAgent.sendStream] driven to its end by the consumer: the new
    state, the chunks it yielded, and how it ended. *)
Definition sendStream (client : APIClient) (a : CodingAgent) (userMessage : jstring)
    : CodingAgent * list jstring * StreamEnd :=
  let userMsg := {| ref := fresh a; role := user; content := userMessage |} in
  let h1 := conversationHistory a ++ [userMsg] in
  let '(chunks, ending) := chatStream client h1 in
  let fullResponse := concat chunks in
  let success := match ending with Completed => true | Failed _ => false end in
  let h2 :=
    if success && truthy_str fullResponse then
      h1 ++ [ {| ref := S (fresh a); role := assistant; content := fullResponse |} ]
    else if negb success then
      let idx := indexOf_obj h1 userMsg in
      if negb (idx =? -1) then splice1 h1 idx else h1
    else h1 in
  ({| conversationHistory := h2;
      pendingUserMessage := None;
      fresh := S (S (fresh a)) |}, chunks, ending).

Definition is_system (m : Message) : bool :=
  match role m with system => true | _ => false end.

Definition is_assistant (m : Message) : bool :=
  match role m with assistant => true | _ => false end.

(** [CodingAgent.getLastResponse]: the content of the last assistant
    message, or the empty string. *)
Definition getLastResponse (a : CodingAgent) : jstring :=
  match List.find is_assistant (reverse (conversationHistory a)) with
  | Some lastAssistant => or_str (content lastAssistant) []
  | None => []
  end.

(** [CodingAgent.clearHistory]: a new array with a new system message. *)
Definition clearHistory (SYSTEM_PROMPT : jstring) (a : CodingAgent) : CodingAgent :=
  {| conversationHistory :=
       [ {| ref := fresh a; role := system; content := SYSTEM_PROMPT |} ];
     pendingUserMessage := None;
     fresh := S (fresh a) |}.

(** [CodingAgent.getHistory]: a copy of the array. *)
Definition getHistory (a : CodingAgent) : list Message := conversationHistory a.

(** [CodingAgent.getMessageCount]. *)
Definition getMessageCount (a : CodingAgent) : nat :=
  length (List.filter (fun m => negb (is_system m)) (conversationHistory a)).

(** [CodingAgent.updateSystemPrompt]: the first message, when it is a
    system message, gets the prompt and the addition as content. *)
Definition updateSystemPrompt (SYSTEM_PROMPT addition : jstring) (a : CodingAgent)
    : CodingAgent :=
  match conversationHistory a with
  | m :: rest =>
      if is_system m then
        {| conversationHistory :=
             {| ref := ref m; role := role m;
                content := SYSTEM_PROMPT ++ [LF; LF] ++ addition |} :: rest;
           pendingUserMessage := pendingUserMessage a;
           fresh := fresh a |}
      else a
  | [] => a
  end.

(** The history starts with a system message. *)
Definition system_first (a : CodingAgent) : Prop :=
  exists m rest, conversationHistory a = m :: rest /\ role m = system.

(** Every object of the history was allocated before [fresh]. *)
Definition heap_ok (a : CodingAgent) : Prop :=
  Forall (fun m => (ref m < fresh a)%nat) (conversationHistory a).

End Agent.

(* ===================================================================== *)
(** ** The frame decoder of the streaming client (agent.ts)              *)
(* ===================================================================== *)

Module Decoder.

(** What can be thrown inside [chatStream]. *)
Inductive Exn :=
| SyntaxError
| TypeError
| Error (message : jstring)
| ReadRejected (reason : jstring).

Inductive Key := Name (n : jstring) | Index0.

(** A line as it travels: its text and the newline that ends it. *)
Definition frame (line : jstring) : jstring := line ++ [LF].

(** The text of a sequence of complete lines. *)
Definition frames (lines : list jstring) : jstring := concat (map frame lines).

(** The line carrying a payload. *)
Definition data_line (payload : jstring) : jstring := str "data: " ++ payload.

Section WithJSON.
(** Numbers are IEEE doubles; only their truthiness matters here. *)
Variable JSNumber : Type.
Variable number_truthy : JSNumber -> bool.

(** The values [JSON.parse] can return. *)
#[warnings="-register-all"]
Inductive JSON :=
| JNull
| JBool (b : bool)
| JNum (n : JSNumber)
| JStr (s : jstring)
| JArr (items : list JSON)
| JObj (fields : list (jstring * JSON)).

(** [JSON.parse]: [None] when it throws a SyntaxError. *)
Variable JSON_parse : jstring -> option JSON.

Definition truthy (v : JSON) : bool :=
  match v with
  | JNull => false
  | JBool b => b
  | JNum n => number_truthy n
  | JStr s => truthy_str s
  | JArr _ | JObj _ => true
  end.

Fixpoint own (fields : list (jstring * JSON)) (n : jstring) : option JSON :=
  match fields with
  | [] => None
  | (k, v) :: rest => if bool_decide (k = n) then Some v else own rest n
  end.

(** [v.name] and [v[0]] for [v] other than null and undefined, with
    [None] for undefined.  The names read by the decoder (choices,
    delta, content) are properties of no built-in prototype. *)
Definition get (v : JSON) (k : Key) : option JSON :=
  match v, k with
  | JObj fields, Name n => own fields n
  | JObj fields, Index0 => own fields (str "0")
  | JArr items, Index0 => head items
  | JStr (c :: _), Index0 => Some (JStr [c])
  | _, _ => None
  end.

(** [v?.k]. *)
Definition get_opt (v : option JSON) (k : Key) : option JSON :=
  match v with
  | None | Some JNull => None
  | Some x => get x k
  end.

(** The body of the [try]: the value to yield, if any. *)
Definition try_body (data : jstring) : Exn + option JSON :=
  match JSON_parse data with
  | None => inl SyntaxError
  | Some JNull => inl TypeError
  | Some parsed =>
      let content :=
        get_opt (get_opt (get_opt (get parsed (Name (str "choices"))) Index0)
                         (Name (str "delta")))
                (Name (str "content")) in
      inr (match content with
           | Some c => if truthy c then Some c else None
           | None => None
           end)
  end.

Inductive LineAction := Yield (content : JSON) | Skip | Return.

(** The body of [for (const line of lines)], with its [catch {}]. *)
Definition on_line (line : jstring) : LineAction :=
  if startsWith line (str "data: ") then
    let data := slice line 6 None in
    if bool_decide (data = str "[DONE]") then Return
    else match try_body data with
         | inr (Some c) => Yield c
         | inr None => Skip
         | inl _ => Skip
         end
  else Skip.

(** The [for] loop: what it yields and whether it returned. *)
Fixpoint for_lines (lines : list jstring) : list JSON * bool :=
  match lines with
  | [] => ([], false)
  | line :: rest =>
      match on_line line with
      | Return => ([], true)
      | Yield c => let '(ys, r) := for_lines rest in (c :: ys, r)
      | Skip => for_lines rest
      end
  end.

(** How the sequence of [reader.read()] results ends. *)
Inductive ReadEnd := Done | Rejected (reason : jstring).

(** The [while (true)] loop over the decoded fragments. *)
Fixpoint read_loop (buffer : jstring) (values : list jstring) (ending : ReadEnd)
    : list JSON * option Exn :=
  match values with
  | [] => ([], match ending with
               | Done => None
               | Rejected r => Some (ReadRejected r)
               end)
  | value :: rest =>
      let buffer1 := buffer ++ value in
      let lines := split buffer1 LF in
      let buffer2 := or_str (List.last lines []) [] in
      let '(ys, returned) := for_lines (removelast lines) in
      if returned then (ys, None)
      else let '(ys', e) := read_loop buffer2 rest ending in (ys ++ ys', e)
  end.

(** The response of [fetch], as far as [chatStream] looks at it. *)
Inductive Response :=
| FetchRejected (reason : jstring)
| NotOk (status : jstring) (body : jstring)
| NoBody
| Body (values : list jstring) (ending : ReadEnd).

(** [APIClient.chatStream]: the values yielded, and the exception that
    ends the generator, if any. *)
Definition chatStream (response : Response) : list JSON * option Exn :=
  match response with
  | FetchRejected r => ([], Some (ReadRejected r))
  | NotOk status body =>
      ([], Some (Error (str "API Error (" ++ status ++ str "): " ++ body)))
  | NoBody => ([], Some (Error (str "No response body")))
  | Body values ending => read_loop [] values ending
  end.

(** The exception a stream of fragments ends with. *)
Definition end_exn (ending : ReadEnd) : option Exn :=
  match ending with
  | Done => None
  | Rejected r => Some (ReadRejected r)
  end.

(** The complete lines of a text: all but what follows its last
    newline. *)
Definition complete_lines (text : jstring) : list jstring :=
  removelast (split text LF).

End WithJSON.

End Decoder.

(* ===================================================================== *)
(** ** The process runner (tools.ts)                                     *)
(* ===================================================================== *)

Module Tools.

(** [interface ToolResult]; [None] is an absent [error]. *)
Record ToolResult := {
  success : bool;
  output : jstring;
  error : option jstring
}.

(** The state of a promise. *)
Inductive Promise (A : Type) :=
| Pending
| Fulfilled (v : A)
| RejectedWith (reason : jstring).
Arguments Pending {A}.
Arguments Fulfilled {A} v.
Arguments RejectedWith {A} reason.

(** [resolve(v)]: only the first call settles the promise. *)
Definition resolve {A} (p : Promise A) (v : A) : Promise A :=
  match p with
  | Pending => Fulfilled v
  | _ => p
  end.

(** What the event loop delivers to the handlers [runCommand] installs:
    data on either pipe, close with the exit code ([None] is null),
    error, and the 30 s timer. *)
Inductive Event :=
| StdoutData (data : jstring)
| StderrData (data : jstring)
| Close (exitCode : option Z)
| ErrorEvent (message : jstring)
| Timer.

(** What [spawn] does: throw, or start a process whose life is the list
    of events delivered afterwards. *)
Inductive Spawn :=
| SpawnThrows (err : jstring)
| Spawned (events : list Event).

(** The variables the closures share, with the promise. *)
Record Run := {
  stdout : jstring;
  stderr : jstring;
  killed : bool;
  promise : Promise ToolResult
}.

Definition on_event (r : Run) (ev : Event) : Run :=
  match ev with
  | StdoutData d =>
      {| stdout := stdout r ++ d; stderr := stderr r; killed := killed r;
         promise := promise r |}
  | StderrData d =>
      {| stdout := stdout r; stderr := stderr r ++ d; killed := killed r;
         promise := promise r |}
  | Close exitCode =>
      {| stdout := stdout r; stderr := stderr r; killed := killed r;
         promise := resolve (promise r)
           {| success := bool_decide (exitCode = Some 0);
              output := or_str (stdout r) (str "(no output)");
              error := if truthy_str (stderr r) then Some (stderr r) else None |} |}
  | ErrorEvent message =>
      {| stdout := stdout r; stderr := stderr r; killed := killed r;
         promise := resolve (promise r)
           {| success := false;
              output := [];
              error := Some (str "Failed to run command: " ++ message) |} |}
  | Timer =>
      {| stdout := stdout r; stderr := stderr r; killed := true;
         promise := resolve (promise r)
           {| success := false;
              output := stdout r;
              error := Some (str "Command timed out (30s)") |} |}
  end.

(** The call of [spawn] inside the [try]: [inl] when it throws. *)
Definition try_spawn (os : Spawn) : jstring + list Event :=
  match os with
  | SpawnThrows err => inl err
  | Spawned events => inr events
  end.

(** The executor passed to [new Promise], which runs at once: the state
    it leaves and the events its handlers will see, or [inl] if the
    executor itself throws (which would reject the promise). *)
Definition executor (os : Spawn) : jstring + Run * list Event :=
  let start := {| stdout := []; stderr := []; killed := false; promise := Pending |} in
  match try_spawn os with
  | inr events => inr (start, events)
  | inl err =>
      (* catch (err) *)
      inr ({| stdout := []; stderr := []; killed := false;
              promise := resolve Pending
                {| success := false;
                   output := [];
                   error := Some (str "Failed to run command: " ++ err) |} |}, [])
  end.

(** [runCommand]: the promise it returned, after the event loop has
    delivered the events.  [spawn] stands for the operating system. *)
Definition runCommand (spawn : jstring -> list jstring -> jstring -> Spawn)
    (command : jstring) (args : list jstring) (workspaceDir : jstring)
    : Promise ToolResult :=
  match executor (spawn command args workspaceDir) with
  | inr (r, events) => promise (fold_left on_event events r)
  | inl reason => RejectedWith reason
  end.

(** Events that only add to the captured output. *)
Definition is_data (ev : Event) : Prop :=
  match ev with
  | StdoutData _ | StderrData _ => True
  | _ => False
  end.

(** The text captured from the standard output by a list of events. *)
Fixpoint stdout_of (events : list Event) : jstring :=
  match events with
  | [] => []
  | StdoutData d :: rest => d ++ stdout_of rest
  | _ :: rest => stdout_of rest
  end.

(** A run is complete when its timer fired: the timer is set once the
    process was spawned and is never cleared. *)
Definition complete (os : Spawn) : Prop :=
  match os with
  | SpawnThrows _ => True
  | Spawned events => Timer ∈ events
  end.

End Tools.

(* ===================================================================== *)
(** ** Command aliases                                                   *)
(* ===================================================================== *)

Module Commands.

Definition commandAliases : gmap jstring jstring :=
  list_to_map (map (fun kv => (str (fst kv), str (snd kv)))
    [ ("/q", "/quit"); ("/e", "/exit"); ("/quit", "/exit");
      ("/h", "/help"); ("/?", "/help");
      ("/c", "/clear"); ("/cls", "/clear");
      ("/hist", "/history");
      ("/cfg", "/config"); ("/settings", "/config");
      ("/l", "/list"); ("/ls", "/list"); ("/dir", "/list");
      ("/s", "/save"); ("/w", "/save"); ("/write", "/save");
      ("/r", "/read"); ("/cat", "/read"); ("/show", "/read");
      ("/d", "/delete"); ("/del", "/delete"); ("/rm", "/delete");
      ("/x", "/run"); ("/exec", "/run");
      ("/sh", "/shell"); ("/$", "/shell"); ("/cmd", "/shell") ]%string).

(** The properties every object literal inherits from
    [Object.prototype]. *)
Definition Object_prototype : list jstring :=
  map str [ "constructor"; "__proto__"; "hasOwnProperty"; "isPrototypeOf";
            "propertyIsEnumerable"; "toLocaleString"; "toString"; "valueOf";
            "__defineGetter__"; "__defineSetter__";
            "__lookupGetter__"; "__lookupSetter__" ]%string.

(** The value of [obj[key]]: an own string, a function or object found on
    the prototype, or undefined. *)
Inductive Property :=
| Own (v : jstring)
| Inherited (name : jstring)
| Undefined.

Definition get_property (obj : gmap jstring jstring) (key : jstring) : Property :=
  match obj !! key with
  | Some v => Own v
  | None =>
      if bool_decide (key ∈ Object_prototype) then Inherited key else Undefined
  end.

Section WithToString.
(** The text [Array.prototype.join] gives an inherited function or
    object; that of a native function is chosen by the engine. *)
Variable inherited_text : jstring -> jstring.

(** [resolveCommand]. *)
Definition resolveCommand (input : jstring) : jstring :=
  let parts := split input SP in
  let cmd := toLowerCase (hd [] parts) in
  match get_property commandAliases cmd with
  | Own v =>
      if truthy_str v then join (v :: tl parts) SP else input
  | Inherited n => join (inherited_text n :: tl parts) SP
  | Undefined => input
  end.

End WithToString.

Definition QUOTE : ascii := ascii_of_nat 34.

(** The class [^\s"] and the class [^"]. *)
Definition is_plain (c : ascii) : bool :=
  negb (is_space c) && negb (bool_decide (c = QUOTE)).

Definition not_quote (c : ascii) : bool := negb (bool_decide (c = QUOTE)).

(** One round of the group of the pattern of [parseCommand],
      a run of [^\s"], or a quote, a run of [^"] and a quote,
    at the start of [s]: the text matched and the rest. *)
Definition group_once (s : jstring) : option (jstring * jstring) :=
  match span is_plain s with
  | ((_ :: _) as w, r) => Some (w, r)
  | ([], _) =>
      match s with
      | c :: s' =>
          if bool_decide (c = QUOTE) then
            let '(q, r) := span not_quote s' in
            match r with
            | _ :: r' => Some (QUOTE :: q ++ [QUOTE], r')
            | [] => None
            end
          else None
      | [] => None
      end
  end.

(** The group repeated as often as it matches. *)
Fixpoint group_plus (fuel : nat) (s : jstring) : jstring * jstring :=
  match fuel with
  | O => ([], s)
  | S n =>
      match group_once s with
      | Some (w, r) => let '(w', r') := group_plus n r in (w ++ w', r')
      | None => ([], s)
      end
  end.

(** All the matches of the pattern, from left to right. *)
Fixpoint match_all (fuel : nat) (s : jstring) : list jstring :=
  match fuel with
  | O => []
  | S n =>
      match s with
      | [] => []
      | _ :: s' =>
          match group_plus (length s) s with
          | ([], _) => match_all n s'
          | (w, r) => w :: match_all n r
          end
      end
  end.

(** [input.match(/(?:[^\s"]+|"[^"]*")+/g) || []]. *)
Definition tokens (input : jstring) : list jstring :=
  match_all (length input) input.

(** [arg.replace(/^"|"$/g, "")]: a quote at the start goes, and a quote
    at the end of what is left. *)
Definition strip_quotes (arg : jstring) : jstring :=
  let s1 := match arg with
            | c :: r => if bool_decide (c = QUOTE) then r else arg
            | [] => []
            end in
  match reverse s1 with
  | c :: r => if bool_decide (c = QUOTE) then reverse r else s1
  | [] => []
  end.

Record ParsedCommand := { command : jstring; args : list jstring }.

(** [parseCommand]. *)
Definition parseCommand (inherited_text : jstring -> jstring) (input : jstring)
    : ParsedCommand :=
  let resolved := resolveCommand inherited_text input in
  let parts := tokens resolved in
  {| command := match parts with
                | p :: _ => or_str (toLowerCase p) []
                | [] => []
                end;
     args := map strip_quotes (tl parts) |}.

(** An argument as the user writes it: a word, or a text between
    quotes. *)
Inductive Item := Word (w : jstring) | Quoted (q : jstring).

Definition render (i : Item) : jstring :=
  match i with
  | Word w => w
  | Quoted q => QUOTE :: q ++ [QUOTE]
  end.

Definition value (i : Item) : jstring :=
  match i with Word w => w | Quoted q => q end.

Definition is_word_text (w : jstring) : Prop :=
  w <> [] /\ Forall (fun c => is_plain c = true) w.

Definition valid (i : Item) : Prop :=
  match i with
  | Word w => is_word_text w
  | Quoted q => QUOTE ∉ q
  end.

(** What may follow an argument: nothing, or a space and more. *)
Definition ends_item (rest : jstring) : Prop :=
  rest = [] \/ exists r, rest = SP :: r.

(** [resolveCommand] in the words of the specification: the token is
    the input up to its first white space. *)
Definition spec_resolveCommand (input : jstring) : jstring :=
  let '(tok, rest) := span (fun c => negb (is_space c)) input in
  match commandAliases !! toLowerCase tok with
  | Some full => full ++ rest
  | None => input
  end.

Definition is_upper (c : ascii) : bool :=
  let n := code_unit c in (65 <=? n)%nat && (n <=? 90)%nat.

End Commands.

(* ===================================================================== *)
(** ** The opening fence, stated on the text                             *)
(* ===================================================================== *)

Module Fence.
Import Extractor.

(** The text of an opening fence line. *)
Definition fence_line (tag p : jstring) : jstring :=
  fence3 ++ tag ++ COLON :: p ++ [LF].

(** A tag as the pattern of the code has it: one or more of [\w]. *)
Definition word_tag (tag : jstring) : Prop :=
  tag <> [] /\ Forall (fun c => is_word c = true) tag.

(** A path: one or more code units other than the newline. *)
Definition line_path (p : jstring) : Prop :=
  p <> [] /\ Forall (fun c => c <> LF) p.

(** [s] is [pre], an opening fence line, and [post]. *)
Definition fence_occurs (s pre tag p post : jstring) : Prop :=
  s = pre ++ fence_line tag p ++ post /\ word_tag tag /\ line_path p.

Definition contains_fence (s : jstring) : Prop :=
  exists pre tag p post, fence_occurs s pre tag p post.

(** The occurrence that starts first. *)
Definition leftmost_fence (s pre tag p post : jstring) : Prop :=
  fence_occurs s pre tag p post /\
  forall pre' tag' p' post',
    fence_occurs s pre' tag' p' post' -> (length pre <= length pre')%nat.

(** A tag in the words of the specification: one or more code units
    that are not white space. *)
Definition spec_tag (tag : jstring) : Prop :=
  tag <> [] /\ Forall (fun c => is_space c = false) tag.

(** The buffer contains the pattern as the specification words it. *)
Definition spec_contains_fence (s : jstring) : Prop :=
  exists pre tag p post,
    s = pre ++ fence_line tag p ++ post /\ spec_tag tag /\ line_path p.

End Fence.

(* ===================================================================== *)
(** ** Running a script (tools.ts)                                       *)
(* ===================================================================== *)

Module Runners.
Import Tools.

Record Runner := { cmd : jstring; args : list jstring }.

(** The table [runners] of [getRunner], built for a file name. *)
Definition runners (filename : jstring) : gmap jstring Runner :=
  list_to_map
    [ (str ".js", {| cmd := str "bun"; args := [filename] |});
      (str ".ts", {| cmd := str "bun"; args := [filename] |});
      (str ".py", {| cmd := str "python"; args := [filename] |});
      (str ".sh", {| cmd := str "bash"; args := [filename] |});
      (str ".ps1", {| cmd := str "powershell"; args := [str "-File"; filename] |});
      (str ".bat", {| cmd := str "cmd"; args := [str "/c"; filename] |});
      (str ".rb", {| cmd := str "ruby"; args := [filename] |});
      (str ".go", {| cmd := str "go"; args := [str "run"; filename] |});
      (str ".rs", {| cmd := str "cargo"; args := [str "script"; filename] |}) ].

(** The value of [runners[ext] || null]: a runner of the table, an object
    or function found on the prototype of the table, or null. *)
Inductive Lookup :=
| Found (r : Runner)
| Inherited (name : jstring)
| Null.

Section WithNode.
(** Node's [path.extname], [path.join] and [fs.existsSync]; the operating
    system; and the text of the TypeError [spawn] throws when its command
    is not a string. *)
Variable path_extname : jstring -> jstring.
Variable path_join : jstring -> jstring -> jstring.
Variable existsSync : jstring -> bool.
Variable spawn : jstring -> list jstring -> jstring -> Spawn.
Variable spawn_type_error : jstring.

(** [getRunner]. *)
Definition getRunner (filename : jstring) : Lookup :=
  let ext := toLowerCase (path_extname filename) in
  match runners filename !! ext with
  | Some r => Found r
  | None =>
      if bool_decide (ext ∈ Commands.Object_prototype) then Inherited ext
      else Null
  end.

(** [runScript]: the promise it returns. *)
Definition runScript (workspaceDir filename : jstring) : Promise ToolResult :=
  match getRunner filename with
  | Null =>
      Fulfilled {| success := false; output := [];
                   error := Some (str "No runner configured for this file type: "
                                  ++ filename) |}
  | Found runner =>
      if negb (existsSync (path_join workspaceDir filename)) then
        Fulfilled {| success := false; output := [];
                     error := Some (str "File not found: " ++ filename) |}
      else runCommand spawn (cmd runner) (args runner) workspaceDir
  | Inherited _ =>
      if negb (existsSync (path_join workspaceDir filename)) then
        Fulfilled {| success := false; output := [];
                     error := Some (str "File not found: " ++ filename) |}
      else
        (* runner.cmd is undefined: spawn throws, runCommand catches *)
        Fulfilled {| success := false; output := [];
                     error := Some (str "Failed to run command: "
                                    ++ spawn_type_error) |}
  end.

(** What Node promises of [path.extname]: the empty string, or a text
    that starts with a dot. *)
Definition extname_shape : Prop :=
  forall f, path_extname f = [] \/ exists r, path_extname f = "."%char :: r.

End WithNode.

End Runners.

(* ===================================================================== *)
(** ** Saving the pending files (config.ts)                               *)
(* ===================================================================== *)

Module Pending.

(** What [askSave] resolves to. *)
Inductive Choice := y | n | a | p.

(** The answer typed at the prompt of [askSave], as [askSave] reads it:
    trimmed, in lower case; everything but n, a and p means yes. *)
Definition choice_of (ans : jstring) : Choice :=
  let ans' := toLowerCase (trim ans) in
  if bool_decide (ans' = str "n") then n
  else if bool_decide (ans' = str "a") then a
  else if bool_decide (ans' = str "p") then p
  else y.

(** The state [processPending] works on: the global [autoAcceptAll], its
    local [all], and a record of what it did: the files it asked about and
    the files it called [saveFile] on. *)
Record State := {
  autoAcceptAll : bool;
  all : bool;
  asked : list PendingFile.t;
  saved : list PendingFile.t
}.

Definition save (st : State) (file : PendingFile.t) : State :=
  {| autoAcceptAll := autoAcceptAll st; all := all st;
     asked := asked st; saved := saved st ++ [file] |}.

(** One round of the loop over [pendingFiles].  The answers the user
    gives are [answers 0], [answers 1], ..., one for each question. *)
Definition step (answers : nat -> jstring) (st : State) (file : PendingFile.t)
    : State :=
  if autoAcceptAll st || all st then save st file
  else
    let choice := choice_of (answers (length (asked st))) in
    let st1 := {| autoAcceptAll := autoAcceptAll st; all := all st;
                  asked := asked st ++ [file]; saved := saved st |} in
    match choice with
    | y => save st1 file
    | n => st1
    | a => save {| autoAcceptAll := autoAcceptAll st1; all := true;
                   asked := asked st1; saved := saved st1 |} file
    | p => save {| autoAcceptAll := true; all := all st1;
                   asked := asked st1; saved := saved st1 |} file
    end.

(** What [processPending] leaves: the global [pendingFiles] and
    [autoAcceptAll], the files asked about and the files saved. *)
Record Outcome := {
  pendingFiles' : list PendingFile.t;
  autoAcceptAll' : bool;
  questions : list PendingFile.t;
  saves : list PendingFile.t
}.

(** [processPending]. *)
Definition processPending (answers : nat -> jstring)
    (pendingFiles : list PendingFile.t) (auto : bool) : Outcome :=
  match pendingFiles with
  | [] => {| pendingFiles' := []; autoAcceptAll' := auto;
             questions := []; saves := [] |}
  | _ =>
      let st := fold_left (step answers) pendingFiles
                  {| autoAcceptAll := auto; all := false; asked := []; saved := [] |} in
      {| pendingFiles' := []; autoAcceptAll' := autoAcceptAll st;
         questions := asked st; saves := saved st |}
  end.

(** The files kept when the answers from the [i]-th on are read as yes or
    no. *)
Fixpoint kept (answers : nat -> jstring) (i : nat) (files : list PendingFile.t)
    : list PendingFile.t :=
  match files with
  | [] => []
  | f :: rest =>
      match choice_of (answers i) with
      | n => kept answers (S i) rest
      | _ => f :: kept answers (S i) rest
      end
  end.

Definition yes_or_no (c : Choice) : Prop := c = y \/ c = n.

End Pending.

(* ===================================================================== *)
(** ** The model search box (config.ts)                                  *)
(* ===================================================================== *)

Module ModelSearch.

Definition maxVisible : nat := 12.

Definition ESC : ascii := ascii_of_nat 27.
Definition key_up : jstring := ESC :: str "[A".
Definition key_down : jstring := ESC :: str "[B".
Definition key_escape : jstring := [ESC].
Definition key_ctrl_c : jstring := [ascii_of_nat 3].
Definition key_return : jstring := [ascii_of_nat 13].
Definition key_newline : jstring := [LF].
Definition key_delete : jstring := [ascii_of_nat 127].
Definition key_backspace : jstring := [ascii_of_nat 8].

(** [s.includes(q)]. *)
Definition includes (s q : jstring) : bool :=
  match find_sub s q with
  | Some _ => true
  | None => false
  end.

(** The colour codes of [c] that the box uses. *)
Definition yellow : jstring := ESC :: str "[33m".
Definition bright : jstring := ESC :: str "[1m".
Definition reset : jstring := ESC :: str "[0m".

(** The class [0-9;]. *)
Definition is_param (c : ascii) : bool :=
  let k := code_unit c in ((48 <=? k) && (k <=? 57) || (k =? 59))%nat.

(** One attempt of the pattern of [stripAnsi],
      ESC, an opening bracket, a run of [0-9;], the letter m,
    at the start of [s]: what follows the match. *)
Definition ansi_at (s : jstring) : option jstring :=
  match s with
  | e :: b :: r =>
      if bool_decide (e = ESC) && bool_decide (b = "["%char) then
        match (span is_param r).2 with
        | m :: r' => if bool_decide (m = "m"%char) then Some r' else None
        | [] => None
        end
      else None
  | _ => None
  end.

Fixpoint strip (fuel : nat) (s : jstring) : jstring :=
  match fuel with
  | O => s
  | S k =>
      match ansi_at s with
      | Some r => strip k r
      | None => match s with
                | [] => []
                | c :: s' => c :: strip k s'
                end
      end
  end.

(** [stripAnsi]: every match of the pattern removed. *)
Definition stripAnsi (s : jstring) : jstring := strip (length s) s.

(** [padRight]. *)
Definition padRight (s : jstring) (len : Z) : jstring :=
  let visibleLen := Z.of_nat (length (stripAnsi s)) in
  let padding := Z.max 0 (len - visibleLen) in
  s ++ repeat SP (Z.to_nat padding).

(** [highlightMatch]. *)
Definition highlightMatch (text q : jstring) : jstring :=
  if negb (truthy_str q) then text
  else
    let idx := indexOf (toLowerCase text) (toLowerCase q) in
    if idx =? -1 then text
    else slice text 0 (Some idx) ++ yellow ++ bright
         ++ slice text idx (Some (idx + Z.of_nat (length q)))
         ++ reset ++ slice text (idx + Z.of_nat (length q)) None.

(** The variables of the closure of [searchModel], and the promise:
    [None] while pending, [Some None] when resolved with null. *)
Record State := {
  query : jstring;
  selectedIndex : nat;
  scrollOffset : nat;
  filtered : list jstring;
  resolved : option (option jstring)
}.

Section WithModels.
Variable cachedModels : list jstring.

(** The models a query keeps. *)
Definition matching (q : jstring) : list jstring :=
  if truthy_str q
  then List.filter (fun m => includes (toLowerCase m) (toLowerCase q)) cachedModels
  else cachedModels.

Definition updateFilter (st : State) : State :=
  {| query := query st; selectedIndex := 0; scrollOffset := 0;
     filtered := matching (query st); resolved := resolved st |}.

(** What [render] does to the state: it moves the window of visible
    rows so that it holds the selected one. *)
Definition render (st : State) : State :=
  {| query := query st; selectedIndex := selectedIndex st;
     scrollOffset :=
       if (selectedIndex st <? scrollOffset st)%nat then selectedIndex st
       else if (scrollOffset st + maxVisible <=? selectedIndex st)%nat
            then (selectedIndex st - maxVisible + 1)%nat
            else scrollOffset st;
     filtered := filtered st; resolved := resolved st |}.

Definition with_selected (st : State) (i : nat) : State :=
  {| query := query st; selectedIndex := i; scrollOffset := scrollOffset st;
     filtered := filtered st; resolved := resolved st |}.

Definition with_query (st : State) (q : jstring) : State :=
  {| query := q; selectedIndex := selectedIndex st; scrollOffset := scrollOffset st;
     filtered := filtered st; resolved := resolved st |}.

Definition resolve (st : State) (v : option jstring) : State :=
  {| query := query st; selectedIndex := selectedIndex st;
     scrollOffset := scrollOffset st; filtered := filtered st;
     resolved := Some v |}.

(** [handleKey]. *)
Definition handleKey (st : State) (key : jstring) : State :=
  if (6 <? length key)%nat || startsWith key (ESC :: str "[M")
     || startsWith key (ESC :: str "[<") then st
  else if bool_decide (key = key_up) then
    if (0 <? selectedIndex st)%nat
    then render (with_selected st (selectedIndex st - 1)) else st
  else if bool_decide (key = key_down) then
    if Z.of_nat (selectedIndex st) <? Z.of_nat (length (filtered st)) - 1
    then render (with_selected st (selectedIndex st + 1)) else st
  else if bool_decide (key = key_escape) || bool_decide (key = key_ctrl_c) then
    resolve st None
  else if bool_decide (key = key_return) || bool_decide (key = key_newline) then
    match filtered st !! selectedIndex st with
    | Some selected =>
        if (0 <? length (filtered st))%nat && truthy_str selected
        then resolve st (Some selected) else st
    | None => st
    end
  else if bool_decide (key = key_delete) || bool_decide (key = key_backspace) then
    if (0 <? length (query st))%nat
    then render (updateFilter (with_query st (slice (query st) 0 (Some (-1)))))
    else st
  else
    match key with
    | c :: _ =>
        if (32 <=? code_unit c)%nat && (code_unit c <=? 126)%nat
        then render (updateFilter (with_query st (query st ++ key)))
        else st
    | [] => st
    end.

(** The listener: [cleanup] removes it once the promise is resolved. *)
Definition on_data (st : State) (key : jstring) : State :=
  match resolved st with
  | Some _ => st
  | None => handleKey st key
  end.

(** The box when it opens, after its first [render]. *)
Definition opened : State :=
  render {| query := []; selectedIndex := 0; scrollOffset := 0;
            filtered := cachedModels; resolved := None |}.

(** The box after the keys. *)
Definition after_keys (keys : list jstring) : State :=
  fold_left on_data keys opened.

(** What holds of the box at all times. *)
Definition consistent (st : State) : Prop :=
  filtered st = matching (query st) /\
  (selectedIndex st = 0%nat \/ (selectedIndex st < length (filtered st))%nat) /\
  (scrollOffset st <= selectedIndex st)%nat /\
  (selectedIndex st < scrollOffset st + maxVisible)%nat /\
  match resolved st with
  | Some (Some m) => filtered st !! selectedIndex st = Some m /\ m <> []
  | _ => True
  end.

End WithModels.

End ModelSearch.

(* ===================================================================== *)
(** ** Stand-ins used by the closed examples                             *)
(* ===================================================================== *)

Module Sample.

(** POSIX [path.isAbsolute]. *)
Definition isAbsolute (p : jstring) : bool := startsWith p (str "/").

(** [path.join] of a directory and a plain file name. *)
Definition join_path (d f : jstring) : jstring := d ++ str "/" ++ f.

Definition cwd : jstring := str "/work".

(** The text of [Object.prototype] and of the function [Object] in V8
    and JavaScriptCore. *)
Definition inherited_text (name : jstring) : jstring :=
  if bool_decide (name = str "__proto__") then str "[object Object]"
  else str "function Object() { [native code] }".

Definition no_files : Extractor.Globals :=
  {| Extractor.pendingFiles := []; Extractor.stdout := [] |}.

(** The three chunks of the scenario of the specification. *)
Definition scenario : list jstring :=
  [ str "Sure, here:
```py"; str "thon:app.py
print(1)
"; str "```
Done." ].

(** A response whose opening fence line is longer than 100 characters,
    cut after the fence line, and cut inside it. *)
Definition long_name : jstring := repeat "a"%char 100.

Definition cut_after_line : list jstring :=
  [ str "```py:" ++ long_name ++ str ".py
"; str "hello world here
```" ].

Definition cut_inside_line : list jstring :=
  [ str "```py:" ++ long_name; str ".py
"; str "hello world here
```" ].

(** A closed block of 20 characters, whole and cut after its fence
    line. *)
Definition block_whole : list jstring :=
  [ str "```py:a.py
x = 1
```" ].

Definition block_cut : list jstring :=
  [ str "```py:a.py
"; str "x = 1
```" ].

(** A block that the stream never closes. *)
Definition unclosed_block : list jstring :=
  [ str "```py:a.py
"; str "x = 1
" ].

(** A response without an opening fence, cut in two ways. *)
Definition plain_cut_1 : list jstring := [ str "Use ``` to "; str "quote code." ].
Definition plain_cut_2 : list jstring := [ str "Use `"; str "`` to quote code." ].

(** An extractor inside a block, with content accumulated. *)
Definition open_block : Extractor.CodeExtractor :=
  {| Extractor.buffer := str "print(x)
";
     Extractor.inBlock := true;
     Extractor.filename := str "src/f.py";
     Extractor.code := str "x = 1
";
     Extractor.dir := cwd |}.

(** A client whose exchange fails: [chat] throws, the stream throws
    after two chunks. *)
Definition failing_client : Agent.APIClient :=
  {| Agent.chat := fun _ => inl (str "API Error (500): down");
     Agent.chatStream := fun _ =>
       ([str "Hel"; str "lo"], Agent.Failed (str "terminated")) |}.

(** A client whose stream completes without a chunk. *)
Definition silent_client : Agent.APIClient :=
  {| Agent.chat := fun _ => inr [];
     Agent.chatStream := fun _ => ([], Agent.Completed) |}.

(** An agent after one exchange. *)
Definition agent1 : Agent.CodingAgent :=
  {| Agent.conversationHistory :=
       [ {| Agent.ref := 0; Agent.role := Agent.system; Agent.content := str "You are Cody." |};
         {| Agent.ref := 1; Agent.role := Agent.user; Agent.content := str "hi" |};
         {| Agent.ref := 2; Agent.role := Agent.assistant; Agent.content := str "Hello!" |} ];
     Agent.pendingUserMessage := None;
     Agent.fresh := 3 |}.

(** A parser that knows one frame, enough to run the decoder. *)
Definition parse (data : jstring) : option (Decoder.JSON unit) :=
  if bool_decide (data = str "{}") then Some (Decoder.JObj unit [])
  else if bool_decide (data = str "null") then Some (Decoder.JNull unit)
  else None.

(** Operating systems: a process that exits with code 0 after some
    output, one that never exits, and a [spawn] that throws. *)
Definition os_exit (_ : jstring) (_ : list jstring) (_ : jstring) : Tools.Spawn :=
  Tools.Spawned [ Tools.StdoutData (str "ok"); Tools.Close (Some 0); Tools.Timer ].

Definition os_hang (_ : jstring) (_ : list jstring) (_ : jstring) : Tools.Spawn :=
  Tools.Spawned [ Tools.StdoutData (str "wait"); Tools.Timer; Tools.Close None ].

(** Three pending files and the answers typed for them. *)
Definition file1 : PendingFile.t :=
  PendingFile.mk (str "a.py") (str "x = 1") (str "/work/a.py").
Definition file2 : PendingFile.t :=
  PendingFile.mk (str "b.py") (str "y = 2") (str "/work/b.py").
Definition file3 : PendingFile.t :=
  PendingFile.mk (str "c.py") (str "z = 3") (str "/work/c.py").

Definition answers_no_yes (i : nat) : jstring :=
  match i with O => str " N " | _ => str "" end.

Definition answers_no_all (i : nat) : jstring :=
  match i with O => str "n" | _ => str "A" end.

(** The models of a provider, and keys typed in the search box. *)
Definition models : list jstring :=
  [ str "gpt-4o"; str "Claude-3-opus"; str "claude-3-haiku" ].

Definition typed : list jstring :=
  [ str "c"; str "L"; ModelSearch.key_down; ModelSearch.key_return; str "x" ].

(** The extension of a file name: from its last dot on. *)
Fixpoint extname (f : jstring) : jstring :=
  match f with
  | [] => []
  | c :: r =>
      match extname r with
      | [] => if bool_decide (c = "."%char) then f else []
      | e => e
      end
  end.

End Sample.

(* ===================================================================== *)
(** ** Facts about the string primitives                                 *)
(* ===================================================================== *)

Ltac list_norm := repeat (progress (rewrite <- ?app_assoc; cbn [app])).

Section StringFacts.

Lemma slice_tail (s : jstring) (n : nat) :
  (0 < n)%nat ->
  slice s (- Z.of_nat n) None = drop (length s - n) s.
Proof.
  intros Hn. unfold slice, rel_index.
  destruct (Z.ltb_spec (- Z.of_nat n) 0) as [_|H]; [|lia].
  replace (Z.to_nat (Z.max 0 (Z.of_nat (length s) + - Z.of_nat n)))
    with (length s - n)%nat by lia.
  apply take_ge. rewrite length_drop. lia.
Qed.

Lemma slice_from (s : jstring) (k : nat) :
  slice s (Z.of_nat k) None = drop k s.
Proof.
  unfold slice, rel_index.
  destruct (Z.ltb_spec (Z.of_nat k) 0) as [H|_]; [lia|].
  rewrite Nat2Z.id.
  destruct (Nat.le_gt_cases k (length s)) as [Hle|Hgt].
  - rewrite Nat.min_l by done. apply take_ge. rewrite length_drop. lia.
  - rewrite Nat.min_r by lia. rewrite Nat.sub_diag, take_0.
    symmetry. apply drop_ge. lia.
Qed.

Lemma slice_upto_nat (s : jstring) (k : nat) :
  slice s 0 (Some (Z.of_nat k)) = take k s.
Proof.
  unfold slice, rel_index. simpl.
  destruct (Z.ltb_spec (Z.of_nat k) 0) as [H|_]; [lia|].
  rewrite Nat2Z.id, Nat.sub_0_r, drop_0.
  destruct (Nat.le_gt_cases k (length s)) as [Hle|Hgt].
  - by rewrite Nat.min_l.
  - rewrite Nat.min_r by lia. rewrite !take_ge; [done|lia..].
Qed.

Lemma slice_head (s : jstring) (n : nat) :
  (0 < n)%nat ->
  slice s 0 (Some (- Z.of_nat n)) = take (length s - n) s.
Proof.
  intros Hn. unfold slice, rel_index. simpl.
  destruct (Z.ltb_spec (- Z.of_nat n) 0) as [_|H]; [|lia].
  rewrite drop_0, Nat.sub_0_r. f_equal. lia.
Qed.

Lemma startsWith_app (s p : jstring) :
  startsWith s p = true <-> exists r, s = p ++ r.
Proof.
  revert s. induction p as [|x p IH]; intros s; simpl.
  - split; [eauto|done].
  - destruct s as [|c s]; simpl.
    + split; [done|]. intros [r Hr]. discriminate.
    + rewrite andb_true_iff, bool_decide_eq_true, IH. split.
      * intros [-> [r ->]]. eauto.
      * intros [r Hr]. injection Hr as -> ->. eauto.
Qed.

(** [find_sub] returns the first position at which the pattern starts. *)
Lemma find_sub_Some (s p : jstring) (i : nat) :
  find_sub s p = Some i <->
  startsWith (drop i s) p = true /\ (i <= length s)%nat /\
  forall j, (j < i)%nat -> startsWith (drop j s) p = false.
Proof.
  revert i. induction s as [|c s IH]; intros i.
  - simpl. destruct (startsWith [] p) eqn:E.
    + split.
      * intros [= <-]. simpl. split_and!; [done|lia|lia].
      * intros (_ & Hi & _). simpl in Hi. f_equal. lia.
    + split; [done|]. intros (H & Hi & _). simpl in Hi.
      replace i with 0%nat in H by lia. simpl in H. congruence.
  - cbn [find_sub]. destruct (startsWith (c :: s) p) eqn:E.
    + split.
      * intros [= <-]. rewrite drop_0. split_and!; [done|lia|lia].
      * intros (_ & _ & Hmin). destruct i as [|i]; [done|].
        specialize (Hmin 0%nat ltac:(lia)). rewrite drop_0 in Hmin. congruence.
    + destruct i as [|i].
      * split.
        -- destruct (find_sub s p); discriminate.
        -- intros (H & _). rewrite drop_0 in H. congruence.
      * rewrite fmap_Some. split.
        -- intros (k & Hk & [= ->]). apply IH in Hk as (H1 & H2 & H3).
           simpl. split_and!; [done|lia|].
           intros [|j] Hj; [by rewrite drop_0|]. simpl. apply H3. lia.
        -- intros (H1 & H2 & H3). exists i. split; [|done].
           apply IH. simpl in H1, H2. split_and!; [done|lia|].
           intros j Hj. apply (H3 (S j)). lia.
Qed.

Lemma find_sub_None (s p : jstring) :
  find_sub s p = None <-> forall j, startsWith (drop j s) p = false.
Proof.
  induction s as [|c s IH].
  - simpl. destruct (startsWith [] p) eqn:E.
    + split; [done|]. intros H. specialize (H 0%nat). simpl in H. congruence.
    + split; [|done]. intros _ j. by rewrite drop_nil.
  - cbn [find_sub]. destruct (startsWith (c :: s) p) eqn:E.
    + split; [done|]. intros H. specialize (H 0%nat). rewrite drop_0 in H.
      congruence.
    + rewrite fmap_None, IH. split.
      * intros H [|j]; [by rewrite drop_0|apply H].
      * intros H j. apply (H (S j)).
Qed.

(** What a greedy class takes: the run, and a rest that is empty or
    starts outside the class. *)
Lemma span_spec (p : ascii -> bool) (s a b : jstring) :
  span p s = (a, b) <->
  s = a ++ b /\ Forall (fun c => p c = true) a /\
  match b with [] => True | c :: _ => p c = false end.
Proof.
  revert a b. induction s as [|c s IH]; intros a b; simpl.
  - split.
    + intros [= <- <-]. by repeat split.
    + intros (H & _ & _). symmetry in H. apply app_eq_nil in H as [-> ->]. done.
  - destruct (p c) eqn:Ec.
    + destruct (span p s) as [a' b'] eqn:Es.
      specialize (IH a' b') as [IH _]. specialize (IH eq_refl) as (-> & Ha & Hb).
      split.
      * intros [= <- <-]. repeat split; [|done]. by constructor.
      * intros (H & Ha2 & Hb2).
        destruct a as [|x a].
        -- simpl in H. subst b. congruence.
        -- injection H as <- H. inversion Ha2; subst.
           assert (a' = a /\ b' = b) as [-> ->]; [|done].
           clear -H Ha Hb H3 Hb2. revert a H H3.
           induction a' as [|y a' IHa]; intros a H H3.
           ++ destruct a as [|z a]; [done|]. simpl in H. subst b'.
              inversion H3; subst. congruence.
           ++ inversion Ha; subst. destruct a as [|z a].
              ** simpl in H. subst b. congruence.
              ** injection H as <- H. inversion H3; subst.
                 destruct (IHa H4 a H H6) as [-> ->]. done.
    + split.
      * intros [= <- <-]. by repeat split.
      * intros (H & Ha & Hb). destruct a as [|x a].
        -- simpl in H. by subst.
        -- injection H as <- _. inversion Ha; subst. congruence.
Qed.

Lemma last_app_ne {A} (l l' : list A) (d : A) :
  l' <> [] -> List.last (l ++ l') d = List.last l' d.
Proof.
  intros Hl'. induction l as [|x l IH]; [done|].
  simpl. rewrite IH. destruct (l ++ l') eqn:E; [|done].
  apply app_eq_nil in E as [_ ->]. done.
Qed.

Lemma split_nonempty (s : jstring) (sep : ascii) : split s sep <> [].
Proof.
  destruct s as [|c s]; simpl; [done|].
  case_bool_decide; [done|]. destruct (split s sep); done.
Qed.

Lemma split_line (l r : jstring) (sep : ascii) :
  sep ∉ l -> split (l ++ sep :: r) sep = l :: split r sep.
Proof.
  induction l as [|c l IH]; intros Hl; simpl.
  - by rewrite bool_decide_eq_true_2.
  - apply not_elem_of_cons in Hl as [Hc Hl].
    rewrite bool_decide_eq_false_2 by done. by rewrite IH.
Qed.

Lemma split_no_sep (l : jstring) (sep : ascii) :
  sep ∉ l -> split l sep = [l].
Proof.
  induction l as [|c l IH]; intros Hl; simpl; [done|].
  apply not_elem_of_cons in Hl as [Hc Hl].
  rewrite bool_decide_eq_false_2 by done. by rewrite IH.
Qed.

Lemma join_cons (p : jstring) (rest : list jstring) (sep : ascii) :
  rest <> [] -> join (p :: rest) sep = p ++ sep :: join rest sep.
Proof. intros H. simpl. destruct rest; done. Qed.

(** Joining the parts of a split gives the text back. *)
Lemma join_split (s : jstring) (sep : ascii) : join (split s sep) sep = s.
Proof.
  induction s as [|c s IH]; [done|]. cbn [split].
  case_bool_decide as Hc.
  - subst c. rewrite join_cons by apply split_nonempty. by rewrite IH.
  - pose proof (split_nonempty s sep) as Hne.
    destruct (split s sep) as [|h t]; [done|].
    destruct t as [|h' t].
    + simpl in *. by rewrite IH.
    + rewrite join_cons in IH by done. rewrite join_cons by done.
      by rewrite <- IH.
Qed.

End StringFacts.

(* ===================================================================== *)
(** ** The pattern of the opening fence                                  *)
(* ===================================================================== *)

Section PatternFacts.
Import Extractor Fence.

Lemma not_LF_false (c : ascii) : not_LF c = false <-> c = LF.
Proof.
  unfold not_LF. rewrite negb_false_iff, bool_decide_eq_true. done.
Qed.

Lemma not_LF_true (c : ascii) : not_LF c = true <-> c <> LF.
Proof.
  unfold not_LF. rewrite negb_true_iff, bool_decide_eq_false. done.
Qed.

Lemma line_path_Forall (p : jstring) :
  Forall (fun c => c <> LF) p <-> Forall (fun c => not_LF c = true) p.
Proof. apply Forall_iff. intros c. by rewrite not_LF_true. Qed.

(** An attempt succeeds exactly on a text that begins with a fence
    line, and captures its tag and path. *)
Lemma fence_at_Some (s : jstring) (m : RegExpMatch) :
  fence_at s = Some m <->
  exists tag p post,
    fence_occurs s [] tag p post /\
    m = {| m0 := fence_line tag p; m1 := tag; m2 := p |}.
Proof.
  unfold fence_at, fence_occurs, fence_line. split.
  - destruct (startsWith s fence3) eqn:Es; [|done].
    apply startsWith_app in Es as [r ->].
    change (drop 3 (fence3 ++ r)) with r.
    destruct (span is_word r) as [tag r1] eqn:Et.
    apply span_spec in Et as (-> & Htag & _).
    destruct tag as [|t tag]; [done|].
    destruct r1 as [|c r2]; [done|].
    case_bool_decide as Hc; [subst c|done].
    destruct (span not_LF r2) as [p r3] eqn:Ep.
    apply span_spec in Ep as (-> & Hp & Hr3).
    destruct p as [|x p]; [done|].
    destruct r3 as [|y r3]; [done|].
    apply not_LF_false in Hr3 as ->.
    intros [= <-]. exists (t :: tag), (x :: p), r3.
    split; [|done]. split_and!.
    + list_norm. done.
    + by split.
    + split; [done|]. by apply line_path_Forall.
  - intros (tag & p & post & (-> & [Ht1 Ht2] & [Hp1 Hp2]) & ->).
    simpl.
    assert (span is_word (tag ++ COLON :: p ++ LF :: post)
            = (tag, COLON :: p ++ LF :: post)) as Et.
    { apply span_spec. split_and!; done. }
    rewrite drop_0. list_norm. rewrite Et.
    destruct tag as [|t tag]; [done|].
    rewrite bool_decide_eq_true_2 by done.
    assert (span not_LF (p ++ LF :: post) = (p, LF :: post)) as Ep.
    { apply span_spec. split_and!; [done|by apply line_path_Forall|done]. }
    rewrite Ep. destruct p as [|x p]; done.
Qed.

Lemma regex_match_Some (s : jstring) (m : RegExpMatch) :
  regex_match s = Some m <->
  exists i, fence_at (drop i s) = Some m /\
            forall j, (j < i)%nat -> fence_at (drop j s) = None.
Proof.
  induction s as [|c s IH].
  - simpl. split; [done|]. intros (i & H & _). by rewrite drop_nil in H.
  - cbn [regex_match]. destruct (fence_at (c :: s)) as [m'|] eqn:E.
    + split.
      * intros [= ->]. exists 0%nat. rewrite drop_0. split; [done|lia].
      * intros ([|i] & H & Hmin).
        -- rewrite drop_0 in H. congruence.
        -- specialize (Hmin 0%nat ltac:(lia)). rewrite drop_0 in Hmin. congruence.
    + rewrite IH. split.
      * intros (i & H & Hmin). exists (S i). split; [done|].
        intros [|j] Hj; [by rewrite drop_0|]. apply Hmin. lia.
      * intros ([|i] & H & Hmin).
        -- rewrite drop_0 in H. congruence.
        -- exists i. split; [done|]. intros j Hj. apply (Hmin (S j)). lia.
Qed.

Lemma regex_match_None (s : jstring) :
  regex_match s = None <-> forall j, fence_at (drop j s) = None.
Proof.
  induction s as [|c s IH].
  - simpl. split; [|done]. intros _ j. by rewrite drop_nil.
  - cbn [regex_match]. destruct (fence_at (c :: s)) as [m'|] eqn:E.
    + split; [done|]. intros H. specialize (H 0%nat). rewrite drop_0 in H.
      congruence.
    + rewrite IH. split.
      * intros H [|j]; [by rewrite drop_0|apply H].
      * intros H j. apply (H (S j)).
Qed.

Lemma fence_at_drop (s : jstring) (j : nat) (m : RegExpMatch) :
  fence_at (drop j s) = Some m ->
  exists tag p post, fence_occurs s (take j s) tag p post /\
                     m = {| m0 := fence_line tag p; m1 := tag; m2 := p |}.
Proof.
  intros H. apply fence_at_Some in H as (tag & p & post & (Hs & Ht & Hp) & ->).
  exists tag, p, post. split; [|done]. split_and!; [|done..].
  cbn [app] in Hs. rewrite <- Hs. by rewrite take_drop.
Qed.

Lemma fence_occurs_drop (s pre tag p post : jstring) :
  fence_occurs s pre tag p post ->
  fence_at (drop (length pre) s)
  = Some {| m0 := fence_line tag p; m1 := tag; m2 := p |}.
Proof.
  intros (-> & Ht & Hp). rewrite drop_app_length.
  apply fence_at_Some. exists tag, p, post. by split.
Qed.

(** The pattern matches exactly the texts that contain a fence line. *)
Lemma regex_match_contains (s : jstring) :
  is_Some (regex_match s) <-> contains_fence s.
Proof.
  split.
  - intros [m Hm]. apply regex_match_Some in Hm as (i & H & _).
    apply fence_at_drop in H as (tag & p & post & H & _).
    by exists (take i s), tag, p, post.
  - intros (pre & tag & p & post & H).
    destruct (regex_match s) eqn:E; [done|].
    pose proof (fence_occurs_drop _ _ _ _ _ H) as Hd.
    rewrite regex_match_None in E. rewrite E in Hd. done.
Qed.

Lemma contains_fence_app (a s b : jstring) :
  contains_fence s -> contains_fence (a ++ s ++ b).
Proof.
  intros (pre & tag & p & post & -> & Ht & Hp).
  exists (a ++ pre), tag, p, (post ++ b). split; [|done].
  by rewrite <- !app_assoc.
Qed.

(** The match of the leftmost occurrence, the position [indexOf] finds
    for its text, and what is left after it. *)
Lemma leftmost_fence_match (s pre tag p post : jstring) :
  leftmost_fence s pre tag p post ->
  regex_match s = Some {| m0 := fence_line tag p; m1 := tag; m2 := p |} /\
  indexOf s (fence_line tag p) = Z.of_nat (length pre) /\
  drop (length pre + length (fence_line tag p)) s = post.
Proof.
  intros [Hocc Hleft].
  assert (forall j, (j < length pre)%nat -> fence_at (drop j s) = None) as Hnone.
  { intros j Hj. destruct (fence_at (drop j s)) as [m|] eqn:E; [|done].
    apply fence_at_drop in E as (tag' & p' & post' & H' & _).
    apply Hleft in H'. rewrite length_take in H'.
    destruct Hocc as (-> & _). lia. }
  split_and!.
  - apply regex_match_Some. exists (length pre). split; [|done].
    by apply (fence_occurs_drop _ _ _ _ post).
  - unfold indexOf.
    assert (find_sub s (fence_line tag p) = Some (length pre)) as ->; [|done].
    apply find_sub_Some. destruct Hocc as (Hs & Ht & Hp). split_and!.
    + rewrite Hs, drop_app_length. apply startsWith_app. eauto.
    + rewrite Hs, length_app. lia.
    + intros j Hj. destruct (startsWith (drop j s) (fence_line tag p)) eqn:E; [|done].
      apply startsWith_app in E as [r Hr].
      assert (fence_at (drop j s) = Some {| m0 := fence_line tag p; m1 := tag; m2 := p |}) as Hsome.
      { apply fence_at_Some. exists tag, p, r. by split. }
      rewrite Hnone in Hsome by done. done.
  - destruct Hocc as (-> & _).
    by rewrite <- drop_drop, drop_app_length, drop_app_length.
Qed.

End PatternFacts.

(* ===================================================================== *)
(** ** The extractor                                                     *)
(* ===================================================================== *)

Section ExtractorFacts.
Import Extractor Fence.

Variable path_isAbsolute : jstring -> bool.
Variable path_join : jstring -> jstring -> jstring.

Abbreviation process := (Extractor.process path_isAbsolute path_join).
Abbreviation flush := (Extractor.flush path_isAbsolute path_join).
Abbreviation consume := (Extractor.consume path_isAbsolute path_join).
Abbreviation sendMessage := (Extractor.sendMessage path_isAbsolute path_join).

(** While scanning, [process] never touches [pendingFiles], and it
    enters a block exactly when the pattern matches. *)
Lemma process_scanning (e : CodeExtractor) (chunk : jstring)
    (pending : list PendingFile.t) :
  inBlock e = false ->
  (process e chunk pending).2 = pending /\
  (inBlock (process e chunk pending).1 = true
   <-> is_Some (regex_match (buffer e ++ chunk))).
Proof.
  intros He. unfold Extractor.process. rewrite He. simpl.
  destruct (regex_match (buffer e ++ chunk)) as [m|]; simpl.
  - split; [done|]. split; eauto.
  - split; [done|]. split; [done|]. by intros [? ?].
Qed.

(** C4 (as amended).  While scanning, [process] enters a block exactly
    when the buffer, with the chunk appended, contains three backticks, a
    tag of one or more word characters, a colon, a path of one or more
    characters other than the newline, and a newline.  At the leftmost
    such occurrence the path, trimmed, becomes [filename] (the tag is not
    kept), the buffer becomes the text after the occurrence, and [code]
    starts empty. *)
Theorem C4_opening_fence (e : CodeExtractor) (chunk : jstring)
    (pending : list PendingFile.t) :
  inBlock e = false ->
  (inBlock (process e chunk pending).1 = true
     <-> contains_fence (buffer e ++ chunk)) /\
  (forall pre tag p post,
      leftmost_fence (buffer e ++ chunk) pre tag p post ->
      process e chunk pending
      = ({| buffer := post; inBlock := true; filename := trim p;
            code := []; dir := dir e |}, pending)).
Proof.
  intros He. split.
  - destruct (process_scanning e chunk pending He) as [_ ->].
    apply regex_match_contains.
  - intros pre tag p post Hl.
    destruct (leftmost_fence_match _ _ _ _ _ Hl) as (Hm & Hi & Hd).
    unfold Extractor.process. rewrite He. cbn [negb]. rewrite Hm. cbn [m0 m2].
    rewrite Hi, <- Nat2Z.inj_add, slice_from, Hd. done.
Qed.

(** C6.  After a call of [process] that leaves the mode unchanged, the
    buffer is a suffix of the text it was searching, of at most 100
    characters while scanning and of at most 10 inside a block; inside a
    block what is cut off the buffer has moved to [code]. *)
Theorem C6_bounded_carry (e : CodeExtractor) (chunk : jstring)
    (pending : list PendingFile.t) :
  inBlock (process e chunk pending).1 = inBlock e ->
  buffer (process e chunk pending).1 `suffix_of` (buffer e ++ chunk) /\
  (length (buffer (process e chunk pending).1)
   <= if inBlock e then 10 else 100)%nat /\
  (inBlock e = true ->
   code (process e chunk pending).1 ++ buffer (process e chunk pending).1
   = code e ++ buffer e ++ chunk).
Proof.
  unfold Extractor.process.
  destruct (inBlock e) eqn:He; simpl.
  - destruct (indexOf (buffer e ++ chunk) fence3 =? -1); simpl; [|done].
    intros _. destruct (Nat.ltb_spec 10 (length (buffer e ++ chunk))) as [H|H]; simpl.
    + rewrite (slice_tail _ 10), (slice_head _ 10) by lia. split_and!.
      * apply suffix_drop.
      * rewrite length_drop. lia.
      * intros _. by rewrite <- app_assoc, take_drop.
    + split_and!; [done|lia|done].
  - destruct (regex_match (buffer e ++ chunk)); simpl; [done|].
    intros _. destruct (Nat.ltb_spec 100 (length (buffer e ++ chunk))) as [H|H].
    + rewrite (slice_tail _ 100) by lia. split_and!.
      * apply suffix_drop.
      * rewrite length_drop. lia.
      * done.
    + split_and!; [done|lia|done].
Qed.

(** [flush] on an extractor inside a block: the extractor is reset
    to scanning with empty buffers; when [code] holds accumulated content,
    exactly one file is appended to [pendingFiles], whose content is
    [code] followed by the buffer, trimmed, and whose name is the captured
    path; when [code] is empty nothing is appended. *)
Theorem flush_in_block (e : CodeExtractor) (pending : list PendingFile.t) :
  inBlock e = true ->
  (flush e pending).1
  = {| buffer := []; inBlock := false; filename := []; code := [];
       dir := dir e |} /\
  (code e <> [] ->
   (flush e pending).2
   = pending ++
     [ {| PendingFile.filename := filename e;
          PendingFile.content := trim (code e ++ buffer e);
          PendingFile.fullPath :=
            if path_isAbsolute (filename e) then filename e
            else path_join (dir e) (filename e) |} ]) /\
  (code e = [] -> (flush e pending).2 = pending).
Proof.
  intros He. unfold Extractor.flush. rewrite He. simpl. split_and!.
  - done.
  - intros Hc. destruct (code e); [done|]. done.
  - intros ->. done.
Qed.

(** The terminal receives every chunk, in order. *)
Lemma fold_consume_stdout (chunks : list jstring) (e : CodeExtractor) (g : Globals) :
  stdout (fold_left consume chunks (e, g)).2 = stdout g ++ concat chunks.
Proof.
  revert e g. induction chunks as [|c chunks IH]; intros e g; simpl.
  - by rewrite app_nil_r.
  - destruct (process e c (pendingFiles g)) as [e' pf] eqn:E.
    rewrite IH. simpl. by rewrite app_assoc.
Qed.

Lemma sendMessage_stdout (d : jstring) (chunks : list jstring)
    (ending : StreamEnd) (g : Globals) :
  stdout (sendMessage d chunks ending g).1 = stdout g ++ concat chunks.
Proof.
  unfold Extractor.sendMessage.
  pose proof (fold_consume_stdout chunks (new_CodeExtractor d) g) as H.
  destruct (fold_left consume chunks (new_CodeExtractor d, g)) as [e1 g1].
  destruct (flush e1 (pendingFiles g1)). simpl in *. done.
Qed.

(** On a text without an opening fence the extractor stays scanning and
    emits nothing, however the text is cut. *)
Lemma fold_consume_no_fence (chunks : list jstring) (e : CodeExtractor) (g : Globals) :
  inBlock e = false ->
  ~ contains_fence (buffer e ++ concat chunks) ->
  inBlock (fold_left consume chunks (e, g)).1 = false /\
  pendingFiles (fold_left consume chunks (e, g)).2 = pendingFiles g.
Proof.
  revert e g. induction chunks as [|c chunks IH]; intros e g He Hno; simpl.
  - done.
  - destruct (process e c (pendingFiles g)) as [e' pf] eqn:E.
    assert (regex_match (buffer e ++ c) = None) as Hm.
    { destruct (regex_match (buffer e ++ c)) eqn:Em; [|done].
      exfalso. apply Hno. simpl. rewrite app_assoc.
      apply (contains_fence_app [] (buffer e ++ c) (concat chunks)).
      apply regex_match_contains. eauto. }
    unfold Extractor.process in E. rewrite He, Hm in E. simpl in E.
    injection E as <- <-.
    match goal with |- context [fold_left _ _ (?x, ?y)] =>
      destruct (IH x y) as [H1 H2] end; [done| |by rewrite H1, H2].
    simpl. intros Hc. apply Hno. simpl.
    destruct (100 <? length (buffer e ++ c))%nat.
    + rewrite (slice_tail _ 100) in Hc by lia.
      rewrite app_assoc.
      rewrite <- (take_drop (length (buffer e ++ c) - 100) (buffer e ++ c)).
      rewrite <- (app_assoc (take _ _)).
      rewrite <- (app_nil_r (drop _ _ ++ _)).
      by apply contains_fence_app.
    + by rewrite app_assoc.
Qed.

(** For every two ways of cutting the same response
    text into chunks, the text written to the terminal is the same (it is
    the response text); and when the text contains no opening fence, the
    files in [pendingFiles] are the same as well (none is added). *)
Theorem chunk_invariance_without_fence (d : jstring) (cs1 cs2 : list jstring)
    (ending : StreamEnd) (g : Globals) :
  concat cs1 = concat cs2 ->
  stdout (sendMessage d cs1 ending g).1 = stdout (sendMessage d cs2 ending g).1 /\
  stdout (sendMessage d cs1 ending g).1 = stdout g ++ concat cs1 /\
  (~ contains_fence (concat cs1) ->
   pendingFiles (sendMessage d cs1 ending g).1
   = pendingFiles (sendMessage d cs2 ending g).1 /\
   pendingFiles (sendMessage d cs1 ending g).1 = pendingFiles g).
Proof.
  intros Heq. split_and!.
  - by rewrite !sendMessage_stdout, Heq.
  - apply sendMessage_stdout.
  - intros Hno.
    assert (forall cs, concat cs = concat cs1 ->
              pendingFiles (sendMessage d cs ending g).1 = pendingFiles g) as H.
    { intros cs Hcs. unfold Extractor.sendMessage.
      destruct (fold_consume_no_fence cs (new_CodeExtractor d) g) as [H1 H2].
      - done.
      - simpl. by rewrite Hcs.
      - destruct (fold_left consume cs (new_CodeExtractor d, g)) as [e1 g1].
        simpl in *. unfold Extractor.flush. rewrite H1. simpl. done. }
    rewrite (H cs1), (H cs2); done.
Qed.

(** C5 (as amended).  On the chunks of the scenario the terminal shows
    the whole response, fence markup and code included, and one file is
    pending, with name app.py and content print(1). *)
Theorem C5_scenario (d : jstring) :
  sendMessage d
    [ str "Sure, here:
```py"; str "thon:app.py
print(1)
"; str "```
Done." ] Completed {| pendingFiles := []; stdout := [] |}
  = ({| pendingFiles :=
          [ {| PendingFile.filename := str "app.py";
               PendingFile.content := str "print(1)";
               PendingFile.fullPath :=
                 if path_isAbsolute (str "app.py") then str "app.py"
                 else path_join d (str "app.py") |} ];
        stdout := str "Sure, here:
```python:app.py
print(1)
```
Done." |}, None).
Proof. reflexivity. Qed.

End ExtractorFacts.

(* ===================================================================== *)
(** ** The conversation store                                            *)
(* ===================================================================== *)

Section AgentFacts.
Import Agent.

Lemma heap_ok_new (SYSTEM_PROMPT : jstring) :
  heap_ok (new_CodingAgent SYSTEM_PROMPT).
Proof. unfold heap_ok. simpl. repeat constructor. Qed.

(** A freshly allocated message is found at the end of the array it was
    pushed on. *)
Lemma indexOf_obj_last (h : list Message) (u : Message) :
  Forall (fun m => ref m <> ref u) h ->
  indexOf_obj (h ++ [u]) u = Z.of_nat (length h).
Proof.
  induction 1 as [|x h Hx Hh IH]; simpl.
  - by rewrite bool_decide_eq_true_2.
  - rewrite bool_decide_eq_false_2 by done. rewrite IH.
    destruct (Z.eqb_spec (Z.of_nat (length h)) (-1)); lia.
Qed.

Lemma splice1_last (h : list Message) (u : Message) :
  splice1 (h ++ [u]) (Z.of_nat (length h)) = h.
Proof.
  unfold splice1. rewrite Nat2Z.id.
  induction h as [|x h IH]; simpl; [done|]. by rewrite IH.
Qed.

Lemma heap_ok_fresh (a : CodingAgent) (u : Message) :
  heap_ok a -> ref u = fresh a ->
  Forall (fun m => ref m <> ref u) (conversationHistory a).
Proof.
  intros H Hu. eapply Forall_impl; [exact H|]. simpl. intros m Hm. lia.
Qed.

Lemma heap_ok_send (client : APIClient) (a : CodingAgent) (userMessage : jstring) :
  heap_ok a -> heap_ok (send client a userMessage).1.
Proof.
  unfold heap_ok, send. intros H.
  destruct (chat client _); simpl.
  - unfold pop. rewrite removelast_last.
    eapply Forall_impl; [exact H|]. simpl. lia.
  - rewrite !Forall_app. split_and!.
    + eapply Forall_impl; [exact H|]. simpl. lia.
    + apply Forall_singleton. simpl. lia.
    + apply Forall_singleton. simpl. lia.
Qed.

Lemma heap_ok_sendStream (client : APIClient) (a : CodingAgent) (userMessage : jstring) :
  heap_ok a -> heap_ok (sendStream client a userMessage).1.1.
Proof.
  unfold heap_ok, sendStream. intros H.
  destruct (chatStream client _) as [chunks ending].
  set (u := {| ref := fresh a; role := user; content := userMessage |}).
  assert (Forall (fun m => (ref m < S (S (fresh a)))%nat)
            (conversationHistory a ++ [u])) as H1.
  { rewrite Forall_app. split.
    - eapply Forall_impl; [exact H|]. simpl. lia.
    - apply Forall_singleton. simpl. lia. }
  cbn [conversationHistory fresh fst].
  destruct ending; simpl.
  - destruct (truthy_str (concat chunks)); [|done].
    rewrite Forall_app. split; [done|]. apply Forall_singleton. simpl. lia.
  - destruct (negb _); [|done]. by apply Forall_delete.
Qed.

(** C3.  A failed exchange leaves the history as it was before the user
    message was pushed: [send] when [chat] throws, [sendStream] when the
    stream throws before completing, after any number of chunks. *)
Theorem C3_rollback (client : APIClient) (a : CodingAgent) (userMessage : jstring) :
  heap_ok a ->
  let userMsg := {| ref := fresh a; role := user; content := userMessage |} in
  (forall err,
      chat client (conversationHistory a ++ [userMsg]) = inl err ->
      conversationHistory (send client a userMessage).1 = conversationHistory a /\
      (send client a userMessage).2 = inl err) /\
  (forall chunks err,
      chatStream client (conversationHistory a ++ [userMsg]) = (chunks, Failed err) ->
      conversationHistory (sendStream client a userMessage).1.1 = conversationHistory a /\
      (sendStream client a userMessage).2 = Failed err).
Proof.
  intros Hok userMsg. split.
  - intros err Hc. unfold send. fold userMsg. rewrite Hc. simpl.
    split; [|done]. unfold pop. apply removelast_last.
  - intros chunks err Hs. unfold sendStream. fold userMsg. rewrite Hs. simpl.
    split; [|done].
    rewrite indexOf_obj_last by (by apply heap_ok_fresh).
    destruct (Z.eqb_spec (Z.of_nat (length (conversationHistory a))) (-1)); [lia|].
    simpl. apply splice1_last.
Qed.

(** C9.  When the stream completes, the user message stays; the assistant
    message is pushed after it exactly when the accumulated text is not
    empty. *)
Theorem C9_empty_response (client : APIClient) (a : CodingAgent)
    (userMessage : jstring) (chunks : list jstring) :
  let userMsg := {| ref := fresh a; role := user; content := userMessage |} in
  chatStream client (conversationHistory a ++ [userMsg]) = (chunks, Completed) ->
  (concat chunks = [] ->
   conversationHistory (sendStream client a userMessage).1.1
   = conversationHistory a ++ [userMsg]) /\
  (concat chunks <> [] ->
   conversationHistory (sendStream client a userMessage).1.1
   = conversationHistory a ++ [userMsg] ++
     [ {| ref := S (fresh a); role := assistant; content := concat chunks |} ]).
Proof.
  intros userMsg Hs. unfold sendStream. fold userMsg. rewrite Hs. simpl. split.
  - intros ->. done.
  - intros Hne. destruct (concat chunks); [done|]. simpl. by rewrite <- app_assoc.
Qed.

End AgentFacts.

(* ===================================================================== *)
(** ** The process runner                                                *)
(* ===================================================================== *)

Section ToolsFacts.
Import Tools.

Lemma fold_settled (events : list Event) (r : Run) (v : ToolResult) :
  promise r = Fulfilled v ->
  promise (fold_left on_event events r) = Fulfilled v.
Proof.
  revert r. induction events as [|ev events IH]; intros r Hr; simpl; [done|].
  apply IH. destruct ev; simpl; by rewrite ?Hr.
Qed.

Lemma fold_data (events : list Event) (r : Run) :
  Forall is_data events ->
  promise (fold_left on_event events r) = promise r /\
  stdout (fold_left on_event events r) = stdout r ++ stdout_of events.
Proof.
  intros H. revert r. induction H as [|ev events Hev _ IH]; intros r.
  - simpl. by rewrite app_nil_r.
  - cbn [fold_left]. destruct (IH (on_event r ev)) as [-> ->].
    destruct ev; try done; simpl. by rewrite <- app_assoc.
Qed.

Lemma on_event_never_rejected (ev : Event) (r : Run) :
  (forall reason, promise r <> RejectedWith reason) ->
  forall reason, promise (on_event r ev) <> RejectedWith reason.
Proof.
  intros Hr reason. destruct ev; simpl; try apply Hr;
    destruct (promise r) eqn:Hp; simpl; try done;
    intros [= <-]; by eapply Hr.
Qed.

Lemma fold_never_rejected (events : list Event) (r : Run) :
  (forall reason, promise r <> RejectedWith reason) ->
  forall reason, promise (fold_left on_event events r) <> RejectedWith reason.
Proof.
  revert r. induction events as [|ev events IH]; intros r Hr; [done|].
  cbn [fold_left]. apply IH. by apply on_event_never_rejected.
Qed.

Lemma fold_timer (events : list Event) (r : Run) :
  (forall reason, promise r <> RejectedWith reason) ->
  Timer ∈ events ->
  exists v, promise (fold_left on_event events r) = Fulfilled v.
Proof.
  revert r. induction events as [|ev events IH]; intros r Hr Hin.
  - by apply elem_of_nil in Hin.
  - cbn [fold_left]. apply elem_of_cons in Hin as [<-|Hin].
    + destruct (promise r) as [|v|reason] eqn:Hp.
      * eexists. apply fold_settled. simpl. by rewrite Hp.
      * exists v. apply fold_settled. simpl. by rewrite Hp.
      * by destruct (Hr reason).
    + apply IH; [|done]. by apply on_event_never_rejected.
Qed.

(** The first event that is not data settles a pending promise; what
    comes later changes nothing. *)
Lemma fold_first_settling (data rest : list Event) (ev : Event) (r : Run) :
  Forall is_data data -> promise r = Pending -> ~ is_data ev ->
  promise (fold_left on_event (data ++ ev :: rest) r)
  = promise (on_event (fold_left on_event data r) ev).
Proof.
  intros Hd Hr Hev. destruct (fold_data data r Hd) as [Hp _].
  rewrite Hr in Hp. rewrite fold_left_app. cbn [fold_left].
  destruct ev; try (by destruct Hev);
    simpl; rewrite Hp; simpl; by apply fold_settled.
Qed.

(** C8.  [runCommand] never rejects.  It is fulfilled with a failure
    record when [spawn] throws, and it is fulfilled in every complete
    run; the first of the events close, error and timer decides the
    record: after close, [success] holds exactly when the exit code is 0;
    after error or the timer, [success] is false and [error] carries a
    message. *)
Theorem C8_runCommand_total
    (spawn : jstring -> list jstring -> jstring -> Spawn)
    (command : jstring) (args : list jstring) (workspaceDir : jstring) :
  (forall reason,
      runCommand spawn command args workspaceDir <> RejectedWith reason) /\
  (complete (spawn command args workspaceDir) ->
   exists r, runCommand spawn command args workspaceDir = Fulfilled r) /\
  (forall err,
      spawn command args workspaceDir = SpawnThrows err ->
      runCommand spawn command args workspaceDir
      = Fulfilled {| success := false; output := [];
                     error := Some (str "Failed to run command: " ++ err) |}) /\
  (forall data rest,
      spawn command args workspaceDir = Spawned (data ++ Timer :: rest) ->
      Forall is_data data ->
      runCommand spawn command args workspaceDir
      = Fulfilled {| success := false; output := stdout_of data;
                     error := Some (str "Command timed out (30s)") |}) /\
  (forall data message rest,
      spawn command args workspaceDir = Spawned (data ++ ErrorEvent message :: rest) ->
      Forall is_data data ->
      runCommand spawn command args workspaceDir
      = Fulfilled {| success := false; output := [];
                     error := Some (str "Failed to run command: " ++ message) |}) /\
  (forall data exitCode rest,
      spawn command args workspaceDir = Spawned (data ++ Close exitCode :: rest) ->
      Forall is_data data ->
      exists r,
        runCommand spawn command args workspaceDir = Fulfilled r /\
        (success r = true <-> exitCode = Some 0) /\
        output r = or_str (stdout_of data) (str "(no output)")).
Proof.
  unfold runCommand, executor, try_spawn, complete.
  destruct (spawn command args workspaceDir) as [err|events]; simpl.
  - split_and!; try done.
    + intros _. eauto.
    + by intros err' [= ->].
  - set (start := {| stdout := []; stderr := []; killed := false;
                     promise := Pending |}).
    split_and!; try done.
    + by apply fold_never_rejected.
    + by apply fold_timer.
    + intros data rest [= ->] Hd.
      rewrite fold_first_settling; [|done|done|by intros []].
      destruct (fold_data data start Hd) as [Hp Hs]. simpl.
      by rewrite Hp, Hs.
    + intros data message rest [= ->] Hd.
      rewrite fold_first_settling; [|done|done|by intros []].
      destruct (fold_data data start Hd) as [Hp Hs]. simpl.
      by rewrite Hp.
    + intros data exitCode rest [= ->] Hd.
      rewrite fold_first_settling; [|done|done|by intros []].
      destruct (fold_data data start Hd) as [Hp Hs]. simpl.
      rewrite Hp, Hs. simpl. eexists. split; [done|]. simpl.
      split; [|done]. apply bool_decide_eq_true.
Qed.

End ToolsFacts.

(* ===================================================================== *)
(** ** The frame decoder                                                 *)
(* ===================================================================== *)

Section DecoderFacts.
Import Decoder.

Variable JSNumber : Type.
Variable number_truthy : JSNumber -> bool.
Variable JSON_parse : jstring -> option (JSON JSNumber).

Abbreviation try_body := (Decoder.try_body JSNumber number_truthy JSON_parse).
Abbreviation on_line := (Decoder.on_line JSNumber number_truthy JSON_parse).
Abbreviation for_lines := (Decoder.for_lines JSNumber number_truthy JSON_parse).
Abbreviation read_loop := (Decoder.read_loop JSNumber number_truthy JSON_parse).
Abbreviation chatStream := (Decoder.chatStream JSNumber number_truthy JSON_parse).

Lemma split_frames (lines : list jstring) (r : jstring) :
  Forall (fun l => LF ∉ l) lines ->
  split (frames lines ++ r) LF = lines ++ split r LF.
Proof.
  induction 1 as [|l lines Hl _ IH]; simpl; [done|].
  unfold frames in *. simpl. unfold frame at 1. list_norm.
  by rewrite split_line, IH.
Qed.

Lemma on_line_data (payload : jstring) :
  on_line (data_line payload)
  = if bool_decide (payload = str "[DONE]") then Return _
    else match try_body payload with
         | inr (Some c) => Yield _ c
         | _ => Skip _
         end.
Proof.
  unfold Decoder.on_line, data_line.
  assert (startsWith (str "data: " ++ payload) (str "data: ") = true) as ->.
  { apply startsWith_app. eauto. }
  change 6 with (Z.of_nat (length (str "data: "))).
  rewrite slice_from, drop_app_length.
  destruct (try_body payload) as [|[|]]; done.
Qed.

Lemma for_lines_app (a b : list jstring) :
  for_lines (a ++ b)
  = if (for_lines a).2 then ((for_lines a).1, true)
    else ((for_lines a).1 ++ (for_lines b).1, (for_lines b).2).
Proof.
  induction a as [|l a IH]; simpl.
  - by destruct (for_lines b).
  - destruct (on_line l); [|done..].
    rewrite IH. destruct (for_lines a) as [ys []]; simpl; [done|].
    by destruct (for_lines b).
Qed.

(** Whatever the lines hold, the loop throws only what [read] threw. *)
Lemma read_loop_exn (values : list jstring) (buffer : jstring) (ending : ReadEnd) :
  (read_loop buffer values ending).2 = None \/
  exists reason, ending = Rejected reason /\
                 (read_loop buffer values ending).2 = Some (ReadRejected reason).
Proof.
  revert buffer. induction values as [|v values IH]; intros buffer; simpl.
  - destruct ending; eauto.
  - destruct (for_lines _) as [ys []]; simpl; [by left|].
    destruct (IH (or_str (List.last (split (buffer ++ v) LF) []) [])) as [H|H];
      destruct (read_loop _ values ending); simpl in *; eauto.
Qed.

(** C7.  A data line whose payload does not parse is skipped: the line
    yields nothing, the lines around it are decoded as if it were absent,
    also inside the stream of fragments; the generator throws nothing
    when [read] does not, whatever the lines hold.  The data line [DONE]
    ends the generator: no line after it is decoded. *)
Theorem C7_bad_frame_skipped (payload : jstring) :
  JSON_parse payload = None ->
  payload <> str "[DONE]" ->
  on_line (data_line payload) = Skip _ /\
  (forall before after,
      for_lines (before ++ data_line payload :: after)
      = for_lines (before ++ after)) /\
  (forall before tail rest ending,
      LF ∉ payload -> Forall (fun l => LF ∉ l) before ->
      chatStream (Body ((frames before ++ frame (data_line payload) ++ tail) :: rest) ending)
      = chatStream (Body ((frames before ++ tail) :: rest) ending)) /\
  (forall values, (chatStream (Body values Done)).2 = None) /\
  on_line (data_line (str "[DONE]")) = Return _ /\
  (forall before after,
      for_lines (before ++ data_line (str "[DONE]") :: after)
      = ((for_lines before).1, true)).
Proof.
  intros Hparse Hne.
  assert (on_line (data_line payload) = Skip _) as Hskip.
  { rewrite on_line_data, bool_decide_eq_false_2 by done.
    unfold Decoder.try_body. by rewrite Hparse. }
  assert (forall before after,
             for_lines (before ++ data_line payload :: after)
             = for_lines (before ++ after)) as Hlines.
  { intros before after. rewrite !for_lines_app. simpl. by rewrite Hskip. }
  split_and!.
  - done.
  - done.
  - intros before tail rest ending Hp Hb.
    assert (LF ∉ data_line payload) as Hd.
    { assert (LF ∉ str "data: ") as Hn
        by (refine (bool_decide_unpack (LF ∉ str "data: ") _); vm_compute; exact I).
      unfold data_line. rewrite elem_of_app. by intros [H|H]. }
    unfold Decoder.chatStream. cbn [Decoder.read_loop app].
    unfold frame. list_norm.
    rewrite !split_frames by done.
    rewrite split_line by done.
    pose proof (split_nonempty tail LF) as Ht.
    rewrite !removelast_app by done.
    rewrite !last_app_ne by done.
    destruct (split tail LF) as [|t ts] eqn:Et; [done|].
    cbn [removelast List.last]. by rewrite Hlines.
  - intros values. simpl.
    destruct (read_loop_exn values [] Done) as [H|(r & H & _)]; done.
  - rewrite on_line_data. by rewrite bool_decide_eq_true_2.
  - intros before after. rewrite for_lines_app. simpl.
    destruct (for_lines before) as [ys []]; simpl; [done|].
    by rewrite app_nil_r.
Qed.

End DecoderFacts.

(* ===================================================================== *)
(** ** Command aliases                                                   *)
(* ===================================================================== *)

Section CommandsFacts.
Import Commands.

Variable inherited_text : jstring -> jstring.

Abbreviation resolveCommand := (Commands.resolveCommand inherited_text).

(** Every alias stands for a command that is not the empty string. *)
Lemma aliases_truthy (k v : jstring) :
  commandAliases !! k = Some v -> truthy_str v = true.
Proof.
  assert (map_Forall (fun _ v => truthy_str v = true) commandAliases) as H.
  { refine (bool_decide_unpack _ _). vm_compute. exact I. }
  apply H.
Qed.

Lemma lower_char_not_upper (c : ascii) : is_upper (lower_char c) = false.
Proof. destruct c as [[] [] [] [] [] [] [] []]; reflexivity. Qed.

Lemma toLowerCase_no_upper (t : jstring) :
  forallb (fun c => negb (is_upper c)) (toLowerCase t) = true.
Proof.
  induction t as [|c t IH]; [done|]. simpl.
  by rewrite lower_char_not_upper, IH.
Qed.

(** Of the names on [Object.prototype] only two are in lower case, so
    only they can be the lowered token. *)
Lemma inherited_reachable (t : jstring) :
  toLowerCase t ∈ Object_prototype ->
  toLowerCase t = str "constructor" \/ toLowerCase t = str "__proto__".
Proof.
  intros Hin. pose proof (toLowerCase_no_upper t) as Hl.
  unfold Object_prototype in Hin. cbn [map] in Hin.
  repeat (apply elem_of_cons in Hin as [Hin|Hin];
          [first [ by left | by right
                 | rewrite Hin in Hl; vm_compute in Hl; discriminate ]|]).
  by apply elem_of_nil in Hin.
Qed.

(** C10 (as amended).  The token of [resolveCommand] is the input up to
    its first space character.  When the token in lower case is an alias,
    the result is the full command followed by the rest of the input,
    unchanged; when it is neither an alias nor one of the two names
    constructor and __proto__, the result is the input, unchanged. *)
Theorem C10_resolveCommand (tok rest : jstring) :
  SP ∉ tok ->
  (rest = [] \/ exists r, rest = SP :: r) ->
  (forall full : jstring,
      commandAliases !! toLowerCase tok = Some full ->
      resolveCommand (tok ++ rest) = full ++ rest) /\
  (commandAliases !! toLowerCase tok = None ->
   toLowerCase tok <> str "constructor" ->
   toLowerCase tok <> str "__proto__" ->
   resolveCommand (tok ++ rest) = tok ++ rest).
Proof.
  intros Htok Hrest.
  assert (split (tok ++ rest) SP
          = tok :: match rest with [] => [] | _ :: r => split r SP end) as Hsplit.
  { destruct Hrest as [->|[r ->]].
    - rewrite app_nil_r. by apply split_no_sep.
    - by apply split_line. }
  unfold Commands.resolveCommand, get_property. rewrite Hsplit. cbn [hd tl].
  split.
  - intros full Hfull. rewrite Hfull, (aliases_truthy _ _ Hfull).
    destruct Hrest as [->|[r ->]].
    + by rewrite app_nil_r.
    + rewrite join_cons by apply split_nonempty. by rewrite join_split.
  - intros Hnone Hc Hp. rewrite Hnone.
    rewrite bool_decide_eq_false_2; [done|].
    intros Hin. by destruct (inherited_reachable _ Hin).
Qed.

End CommandsFacts.

(* ===================================================================== *)
(** ** The theorems at concrete inputs                                   *)
(* ===================================================================== *)

Section Examples.
Import Extractor Fence.

Abbreviation run_sendMessage :=
  (sendMessage Sample.isAbsolute Sample.join_path Sample.cwd).
Abbreviation run_process := (process Sample.isAbsolute Sample.join_path).
Abbreviation run_flush := (flush Sample.isAbsolute Sample.join_path).
Abbreviation run_consume := (consume Sample.isAbsolute Sample.join_path).

Lemma no_fence_by_match (s : jstring) :
  regex_match s = None -> ~ contains_fence s.
Proof.
  intros H Hc. apply regex_match_contains in Hc as [m Hm]. congruence.
Qed.

(** The window of 100 characters: the same text, cut after its long
    fence line or inside it, leaves one pending file or none. *)
Lemma long_fence_line_cut :
  concat Sample.cut_after_line = concat Sample.cut_inside_line /\
  length (pendingFiles (run_sendMessage Sample.cut_after_line Completed Sample.no_files).1) = 1%nat /\
  pendingFiles (run_sendMessage Sample.cut_inside_line Completed Sample.no_files).1 = [] /\
  pendingFiles (run_sendMessage Sample.cut_after_line Completed Sample.no_files).1
  <> pendingFiles (run_sendMessage Sample.cut_inside_line Completed Sample.no_files).1.
Proof. vm_compute. split_and!; done. Qed.

Lemma chunk_invariance_without_fence_witness :
  concat Sample.plain_cut_1 = concat Sample.plain_cut_2 /\
  ~ contains_fence (concat Sample.plain_cut_1) /\
  stdout (run_sendMessage Sample.plain_cut_1 Completed Sample.no_files).1
  = stdout (run_sendMessage Sample.plain_cut_2 Completed Sample.no_files).1 /\
  pendingFiles (run_sendMessage Sample.plain_cut_1 Completed Sample.no_files).1
  = pendingFiles (run_sendMessage Sample.plain_cut_2 Completed Sample.no_files).1.
Proof.
  assert (~ contains_fence (concat Sample.plain_cut_1)) as Hno
    by (apply no_fence_by_match; reflexivity).
  destruct (chunk_invariance_without_fence Sample.isAbsolute Sample.join_path Sample.cwd
              Sample.plain_cut_1 Sample.plain_cut_2 Completed Sample.no_files
              eq_refl) as (H1 & _ & H3).
  split; [reflexivity|]. split; [exact Hno|]. split; [exact H1|].
  exact (proj1 (H3 Hno)).
Defined.

(** C1, the code against the claim.  The same response, a closed block
    of 20 characters, is delivered whole and cut after its fence line.
    The terminal shows the same text both times.  Delivered whole, the
    block is not seen: [process] returns after the opening fence with the
    rest of the chunk in the buffer, and [flush] finds [code] empty; no
    file is pending.  Cut after the fence line, the second call of
    [process] finds the closing fence, and a.py is pending. *)
Theorem C1_one_chunk_loses_block :
  concat Sample.block_whole = concat Sample.block_cut /\
  stdout (run_sendMessage Sample.block_whole Completed Sample.no_files).1
  = stdout (run_sendMessage Sample.block_cut Completed Sample.no_files).1 /\
  (fold_left run_consume Sample.block_whole
     (new_CodeExtractor Sample.cwd, Sample.no_files)).1
  = {| buffer := str "x = 1
```"; inBlock := true; filename := str "a.py"; code := [];
       dir := Sample.cwd |} /\
  pendingFiles (run_sendMessage Sample.block_whole Completed Sample.no_files).1
  = [] /\
  pendingFiles (run_sendMessage Sample.block_cut Completed Sample.no_files).1
  = [ {| PendingFile.filename := str "a.py";
         PendingFile.content := str "x = 1";
         PendingFile.fullPath := str "/work/a.py" |} ].
Proof. vm_compute. split_and!; reflexivity. Qed.

(** C2, the code against the claim.  After the fence line of a.py and
    the line x = 1 the stream ends: the extractor is inside the block,
    the line is in the buffer and [code] is empty.  [flush] tests [code]
    before it appends the buffer to it, so nothing is appended and no
    file is pushed, where the claim has one file, a.py with content
    x = 1; the extractor is reset. *)
Theorem C2_buffered_block_not_flushed :
  (fold_left run_consume Sample.unclosed_block
     (new_CodeExtractor Sample.cwd, Sample.no_files)).1
  = {| buffer := str "x = 1
"; inBlock := true; filename := str "a.py"; code := [];
       dir := Sample.cwd |} /\
  run_flush
    (fold_left run_consume Sample.unclosed_block
       (new_CodeExtractor Sample.cwd, Sample.no_files)).1 []
  = ({| buffer := []; inBlock := false; filename := []; code := [];
        dir := Sample.cwd |}, []) /\
  pendingFiles (run_sendMessage Sample.unclosed_block Completed Sample.no_files).1
  = [] /\
  pendingFiles (run_sendMessage Sample.unclosed_block Completed Sample.no_files).1
  <> [ {| PendingFile.filename := str "a.py";
          PendingFile.content := str "x = 1";
          PendingFile.fullPath := str "/work/a.py" |} ].
Proof. vm_compute. split_and!; [reflexivity..|discriminate]. Qed.

Lemma flush_in_block_witness :
  inBlock Sample.open_block = true /\
  code Sample.open_block <> [] /\
  (run_flush Sample.open_block []).2
  = [ {| PendingFile.filename := str "src/f.py";
         PendingFile.content := str "x = 1
print(x)";
         PendingFile.fullPath := str "/work/src/f.py" |} ] /\
  inBlock (run_flush Sample.open_block []).1 = false.
Proof.
  destruct (flush_in_block Sample.isAbsolute Sample.join_path
              Sample.open_block [] eq_refl) as (H1 & H2 & _).
  split; [reflexivity|]. split; [discriminate|]. split.
  - rewrite H2 by discriminate. reflexivity.
  - rewrite H1. reflexivity.
Defined.

(** C4, the claim as stated fails: a tag may hold no white space and
    still not be a tag of the pattern. *)
Lemma C4_tag_not_word :
  spec_contains_fence (str "```c++:main.cpp
") /\
  inBlock (run_process (new_CodeExtractor Sample.cwd) (str "```c++:main.cpp
") []).1 = false.
Proof.
  split; [|reflexivity].
  exists [], (str "c++"), (str "main.cpp"), []. split_and!.
  - reflexivity.
  - split; [discriminate|]. repeat constructor.
  - split; [discriminate|]. repeat (constructor; [discriminate|]). constructor.
Qed.

Lemma C4_opening_fence_witness :
  inBlock (new_CodeExtractor Sample.cwd) = false /\
  leftmost_fence (str "ok:
```ts:src/a.ts
let x") (str "ok:
") (str "ts") (str "src/a.ts") (str "let x") /\
  run_process (new_CodeExtractor Sample.cwd) (str "ok:
```ts:src/a.ts
let x") []
  = ({| buffer := str "let x"; inBlock := true; filename := str "src/a.ts";
        code := []; dir := Sample.cwd |}, []).
Proof.
  assert (leftmost_fence (str "ok:
```ts:src/a.ts
let x") (str "ok:
") (str "ts") (str "src/a.ts") (str "let x")) as Hl.
  { split.
    - split_and!.
      + reflexivity.
      + split; [discriminate|]. repeat constructor.
      + split; [discriminate|]. repeat (constructor; [discriminate|]). constructor.
    - intros pre' tag' p' post' H.
      pose proof (fence_occurs_drop _ _ _ _ _ H) as Hd.
      destruct (length pre') as [|[|[|[|n]]]]; try discriminate Hd.
      simpl. lia. }
  split; [reflexivity|]. split; [exact Hl|].
  exact (proj2 (C4_opening_fence Sample.isAbsolute Sample.join_path
                  (new_CodeExtractor Sample.cwd) _ [] eq_refl) _ _ _ _ Hl).
Defined.

(** C5, the claim as stated fails: the terminal does not show the short
    text; the fence is on it, at position 12. *)
Lemma C5_markup_shown :
  stdout (run_sendMessage Sample.scenario Completed Sample.no_files).1
  <> str "Sure, here:
Done." /\
  indexOf (stdout (run_sendMessage Sample.scenario Completed Sample.no_files).1)
          fence3 = 12.
Proof. split; [discriminate|reflexivity]. Qed.

Lemma C6_bounded_carry_witness :
  inBlock (run_process (new_CodeExtractor Sample.cwd) (repeat "x"%char 250) []).1
  = inBlock (new_CodeExtractor Sample.cwd) /\
  (length (buffer (run_process (new_CodeExtractor Sample.cwd) (repeat "x"%char 250) []).1)
   <= 100)%nat /\
  inBlock (run_process Sample.open_block (repeat "x"%char 250) []).1
  = inBlock Sample.open_block /\
  (length (buffer (run_process Sample.open_block (repeat "x"%char 250) []).1)
   <= 10)%nat.
Proof.
  split; [reflexivity|]. split.
  - exact (proj1 (proj2 (C6_bounded_carry Sample.isAbsolute Sample.join_path
                    (new_CodeExtractor Sample.cwd) (repeat "x"%char 250) [] eq_refl))).
  - split; [reflexivity|].
    exact (proj1 (proj2 (C6_bounded_carry Sample.isAbsolute Sample.join_path
                    Sample.open_block (repeat "x"%char 250) [] eq_refl))).
Defined.

Lemma C3_rollback_witness :
  Agent.heap_ok Sample.agent1 /\
  Agent.conversationHistory
    (Agent.send Sample.failing_client Sample.agent1 (str "fix it")).1
  = Agent.conversationHistory Sample.agent1 /\
  Agent.conversationHistory
    (Agent.sendStream Sample.failing_client Sample.agent1 (str "fix it")).1.1
  = Agent.conversationHistory Sample.agent1.
Proof.
  assert (Agent.heap_ok Sample.agent1) as Hok.
  { unfold Agent.heap_ok. simpl. repeat constructor. }
  destruct (C3_rollback Sample.failing_client Sample.agent1 (str "fix it") Hok)
    as [H1 H2].
  split; [exact Hok|]. split.
  - exact (proj1 (H1 _ eq_refl)).
  - exact (proj1 (H2 _ _ eq_refl)).
Defined.

Lemma C9_empty_response_witness :
  Agent.chatStream Sample.silent_client
    (Agent.conversationHistory Sample.agent1 ++
     [ {| Agent.ref := 3; Agent.role := Agent.user; Agent.content := str "hm" |} ])
  = ([], Agent.Completed) /\
  Agent.conversationHistory
    (Agent.sendStream Sample.silent_client Sample.agent1 (str "hm")).1.1
  = Agent.conversationHistory Sample.agent1 ++
    [ {| Agent.ref := 3; Agent.role := Agent.user; Agent.content := str "hm" |} ].
Proof.
  split; [reflexivity|].
  exact (proj1 (C9_empty_response Sample.silent_client Sample.agent1 (str "hm") []
                  eq_refl) eq_refl).
Defined.

Lemma C7_bad_frame_skipped_witness :
  Sample.parse (str "{oops") = None /\
  str "{oops" <> str "[DONE]" /\
  Decoder.on_line unit (fun _ => true) Sample.parse (Decoder.data_line (str "{oops"))
  = Decoder.Skip unit /\
  Decoder.chatStream unit (fun _ => true) Sample.parse
    (Decoder.Body [ Decoder.frames [ Decoder.data_line (str "{}") ]
                    ++ Decoder.frame (Decoder.data_line (str "{oops"))
                    ++ str "data: [DO" ] Decoder.Done)
  = Decoder.chatStream unit (fun _ => true) Sample.parse
    (Decoder.Body [ Decoder.frames [ Decoder.data_line (str "{}") ]
                    ++ str "data: [DO" ] Decoder.Done).
Proof.
  destruct (C7_bad_frame_skipped unit (fun _ => true) Sample.parse (str "{oops")
              eq_refl ltac:(discriminate)) as (H1 & _ & H3 & _).
  split; [reflexivity|]. split; [discriminate|]. split; [exact H1|].
  apply H3.
  - apply (bool_decide_unpack _). vm_compute. exact I.
  - repeat constructor. apply (bool_decide_unpack _). vm_compute. exact I.
Defined.

Lemma C8_runCommand_total_witness :
  Tools.complete (Sample.os_exit (str "bun") [str "a.ts"] Sample.cwd) /\
  Tools.runCommand Sample.os_exit (str "bun") [str "a.ts"] Sample.cwd
  = Tools.Fulfilled {| Tools.success := true; Tools.output := str "ok";
                       Tools.error := None |} /\
  Tools.runCommand Sample.os_hang (str "bun") [str "a.ts"] Sample.cwd
  = Tools.Fulfilled {| Tools.success := false; Tools.output := str "wait";
                       Tools.error := Some (str "Command timed out (30s)") |}.
Proof.
  destruct (C8_runCommand_total Sample.os_exit (str "bun") [str "a.ts"] Sample.cwd)
    as (_ & H2 & _).
  destruct (C8_runCommand_total Sample.os_hang (str "bun") [str "a.ts"] Sample.cwd)
    as (_ & _ & _ & H4 & _).
  assert (Tools.complete (Sample.os_exit (str "bun") [str "a.ts"] Sample.cwd)) as Hc.
  { simpl. rewrite !elem_of_cons. do 2 right. by left. }
  split; [exact Hc|]. split.
  - destruct (H2 Hc) as [r Hr]. rewrite Hr. vm_compute in Hr.
    injection Hr as <-. reflexivity.
  - apply (H4 [Tools.StdoutData (str "wait")] [Tools.Close None] eq_refl).
    repeat constructor.
Defined.

(** C10, the claim as stated fails: a tab ends the first token delimited
    by white space, but [split] cuts at spaces only. *)
Lemma C10_tab_is_no_separator :
  Commands.resolveCommand Sample.inherited_text (str "/q" ++ TAB :: str "now")
  = str "/q" ++ TAB :: str "now" /\
  Commands.spec_resolveCommand (str "/q" ++ TAB :: str "now")
  = str "/quit" ++ TAB :: str "now" /\
  Commands.resolveCommand Sample.inherited_text (str "/q" ++ TAB :: str "now")
  <> Commands.spec_resolveCommand (str "/q" ++ TAB :: str "now").
Proof. vm_compute. split_and!; done. Qed.

Lemma C10_resolveCommand_witness :
  (SP ∉ str "/LS") /\
  Commands.commandAliases !! toLowerCase (str "/LS") = Some (str "/list") /\
  Commands.resolveCommand Sample.inherited_text (str "/LS src  -a")
  = str "/list src  -a" /\
  Commands.resolveCommand Sample.inherited_text (str "/Models now")
  = str "/Models now".
Proof.
  assert (SP ∉ str "/LS") as H1
    by (apply (bool_decide_unpack _); vm_compute; exact I).
  assert (SP ∉ str "/Models") as H2
    by (apply (bool_decide_unpack _); vm_compute; exact I).
  assert (Commands.commandAliases !! toLowerCase (str "/LS") = Some (str "/list"))
    as Hl by (vm_compute; reflexivity).
  split; [exact H1|]. split; [exact Hl|]. split.
  - exact (proj1 (C10_resolveCommand Sample.inherited_text (str "/LS") (str " src  -a")
                    H1 (or_intror (ex_intro _ _ eq_refl))) _ Hl).
  - apply (proj2 (C10_resolveCommand Sample.inherited_text (str "/Models") (str " now")
                    H2 (or_intror (ex_intro _ _ eq_refl)))).
    + vm_compute. reflexivity.
    + discriminate.
    + discriminate.
Defined.

(** A token that names a property of [Object.prototype] is replaced by
    the text of that property. *)
Example constructor_is_rewritten :
  Commands.resolveCommand Sample.inherited_text (str "constructor x")
  = str "function Object() { [native code] } x".
Proof. vm_compute. reflexivity. Qed.

End Examples.

(* ===================================================================== *)
(** ** More on searching a text                                          *)
(* ===================================================================== *)

Ltac list_norm_in H :=
  repeat (progress (rewrite <- ?app_assoc in H; cbn [app] in H)).

Section SearchFacts.

Lemma startsWith_length (s p : jstring) :
  startsWith s p = true -> (length p <= length s)%nat.
Proof.
  intros H. apply startsWith_app in H as [r ->]. rewrite length_app. lia.
Qed.

Lemma startsWith_app_l (s t p : jstring) :
  (length p <= length s)%nat -> startsWith (s ++ t) p = startsWith s p.
Proof.
  revert s. induction p as [|x p IH]; intros s Hl; [done|].
  destruct s as [|c s]; simpl in *; [lia|].
  rewrite IH by lia. done.
Qed.

(** An occurrence found in a text is the first one in every extension of
    the text. *)
Lemma find_sub_app_l (a b p : jstring) (k : nat) :
  find_sub a p = Some k -> find_sub (a ++ b) p = Some k.
Proof.
  intros H. apply find_sub_Some in H as (H1 & H2 & H3).
  pose proof (startsWith_length _ _ H1) as Hl. rewrite length_drop in Hl.
  apply find_sub_Some. split_and!.
  - rewrite drop_app_le by done. rewrite startsWith_app_l; [done|].
    rewrite length_drop. lia.
  - rewrite length_app. lia.
  - intros j Hj. rewrite drop_app_le by lia. rewrite startsWith_app_l.
    + by apply H3.
    + rewrite length_drop. lia.
Qed.

(** An occurrence that is not inside a prefix ends after it. *)
Lemma find_sub_beyond (a b p : jstring) (i : nat) :
  find_sub a p = None -> find_sub (a ++ b) p = Some i ->
  (length a < i + length p)%nat.
Proof.
  intros Hn Hs. apply find_sub_Some in Hs as (H1 & _ & _).
  destruct (Nat.lt_ge_cases (length a) (i + length p)) as [|Hle]; [done|].
  rewrite find_sub_None in Hn. specialize (Hn i).
  rewrite drop_app_le in H1 by lia.
  rewrite startsWith_app_l in H1 by (rewrite length_drop; lia). congruence.
Qed.

Lemma find_sub_drop (s p : jstring) (i n : nat) :
  find_sub s p = Some i -> (n <= i)%nat ->
  find_sub (drop n s) p = Some (i - n)%nat.
Proof.
  intros H Hn. apply find_sub_Some in H as (H1 & H2 & H3).
  apply find_sub_Some. split_and!.
  - rewrite drop_drop. by replace (n + (i - n))%nat with i by lia.
  - rewrite length_drop. lia.
  - intros j Hj. rewrite drop_drop. apply H3. lia.
Qed.

Lemma find_sub_None_drop (s p : jstring) (n : nat) :
  find_sub s p = None -> find_sub (drop n s) p = None.
Proof.
  rewrite !find_sub_None. intros H j. rewrite drop_drop. apply H.
Qed.

(** What [trimStart] returns does not begin with white space. *)
Lemma trimStart_head (s : jstring) (c : ascii) :
  head (trimStart s) = Some c -> is_space c = false.
Proof.
  induction s as [|x s IH]; simpl; [done|].
  destruct (is_space x) eqn:E; [done|]. simpl. by intros [= <-].
Qed.

Lemma trimStart_fixed (s : jstring) :
  (forall c, head s = Some c -> is_space c = false) -> trimStart s = s.
Proof.
  destruct s as [|x s]; [done|]. simpl. intros H. by rewrite (H x).
Qed.

Lemma trimStart_suffix (s : jstring) : trimStart s `suffix_of` s.
Proof.
  induction s as [|x s IH]; simpl; [done|].
  destruct (is_space x); [|done]. by apply suffix_cons_r.
Qed.

Lemma trimEnd_prefix (s : jstring) : trimEnd s `prefix_of` s.
Proof.
  unfold trimEnd. destruct (trimStart_suffix (rev s)) as [k Hk].
  exists (rev k). apply (f_equal (@rev ascii)) in Hk.
  by rewrite rev_involutive, rev_app_distr in Hk.
Qed.

Lemma rev_reverse {A} (l : list A) : rev l = reverse l.
Proof. unfold reverse. apply rev_alt. Qed.

Lemma trimEnd_last (s : jstring) (c : ascii) :
  last (trimEnd s) = Some c -> is_space c = false.
Proof.
  unfold trimEnd. rewrite rev_reverse, last_reverse. apply trimStart_head.
Qed.

Lemma trimEnd_head (s : jstring) (c : ascii) :
  head (trimEnd s) = Some c -> head s = Some c.
Proof.
  destruct (trimEnd_prefix s) as [k Hk]. rewrite Hk at 2.
  destruct (trimEnd s); [done|]. done.
Qed.

(** The result of [trim] has white space at neither end. *)
Lemma trim_ends (s : jstring) (c : ascii) :
  head (trim s) = Some c \/ last (trim s) = Some c -> is_space c = false.
Proof.
  unfold trim. intros [H|H].
  - apply trimEnd_head in H. by apply trimStart_head in H.
  - by apply trimEnd_last in H.
Qed.

(** A text with white space at neither end is left alone by [trim]. *)
Lemma trim_fixed (s : jstring) :
  (forall c, head s = Some c \/ last s = Some c -> is_space c = false) ->
  trim s = s.
Proof.
  intros H. unfold trim. rewrite trimStart_fixed by (intros c Hc; apply H; by left).
  unfold trimEnd. rewrite trimStart_fixed; [apply rev_involutive|].
  intros c Hc. apply H. right.
  rewrite rev_reverse, head_reverse in Hc. done.
Qed.

Lemma trim_idempotent (s : jstring) : trim (trim s) = trim s.
Proof. apply trim_fixed. apply trim_ends. Qed.

End SearchFacts.

(* ===================================================================== *)
(** ** The extractor over a whole stream                                 *)
(* ===================================================================== *)

Section ExtractorStream.
Import Extractor Fence.

Variable path_isAbsolute : jstring -> bool.
Variable path_join : jstring -> jstring -> jstring.

Abbreviation process' := (Extractor.process path_isAbsolute path_join).
Abbreviation flush' := (Extractor.flush path_isAbsolute path_join).
Abbreviation consume' := (Extractor.consume path_isAbsolute path_join).
Abbreviation sendMessage' := (Extractor.sendMessage path_isAbsolute path_join).
Abbreviation pending_of' := (Extractor.pending_of path_isAbsolute path_join).
Abbreviation pushed_by := (Extractor.pushed_by path_isAbsolute path_join).

Lemma pushed_by_pending_of (d fname body : jstring) :
  pushed_by d (pending_of' d fname body).
Proof. split; simpl; [apply trim_idempotent|done]. Qed.

(** One call of [process] keeps the directory and the files already
    pending, in order, and pushes at most one file, made as above. *)
Ltac nothing_pushed :=
  exists []; split_and!; [by rewrite app_nil_r | simpl; lia | by constructor].

Lemma process_step (e : CodeExtractor) (chunk : jstring) (pending : list PendingFile.t) :
  dir (process' e chunk pending).1 = dir e /\
  exists new, (process' e chunk pending).2 = pending ++ new /\
              (length new <= 1)%nat /\ Forall (pushed_by (dir e)) new.
Proof.
  unfold Extractor.process.
  destruct (inBlock e); simpl.
  - destruct (indexOf _ _ =? -1); simpl.
    + destruct (10 <? _)%nat; simpl; (split; [done|]); nothing_pushed.
    + split; [done|]. eexists [_]. split_and!; [done|simpl; lia|].
      apply Forall_singleton, pushed_by_pending_of.
  - destruct (regex_match _); simpl; (split; [done|]); nothing_pushed.
Qed.

Lemma consume_eq (e : CodeExtractor) (g : Globals) (c : jstring) :
  consume' (e, g) c
  = ((process' e c (pendingFiles g)).1,
     {| pendingFiles := (process' e c (pendingFiles g)).2;
        stdout := stdout g ++ c |}).
Proof. unfold Extractor.consume. by destruct (process' e c (pendingFiles g)). Qed.

Lemma fold_consume_step (chunks : list jstring) (e : CodeExtractor) (g : Globals) :
  dir (fold_left consume' chunks (e, g)).1 = dir e /\
  exists new,
    pendingFiles (fold_left consume' chunks (e, g)).2 = pendingFiles g ++ new /\
    (length new <= length chunks)%nat /\ Forall (pushed_by (dir e)) new.
Proof.
  revert e g. induction chunks as [|c chunks IH]; intros e g.
  - simpl. split; [done|]. nothing_pushed.
  - cbn [fold_left]. rewrite consume_eq.
    destruct (process_step e c (pendingFiles g)) as (Hd & new1 & H1 & Hl1 & Hp1).
    destruct (process' e c (pendingFiles g)) as [e' pf]. simpl in Hd, H1 |- *.
    match goal with |- context [fold_left _ _ (e', ?g')] =>
      destruct (IH e' g') as (Hd2 & new2 & H2 & Hl2 & Hp2) end.
    rewrite Hd2, H2. simpl. split; [done|].
    exists (new1 ++ new2). subst pf. rewrite Hd in Hp2.
    split_and!.
    + by rewrite app_assoc.
    + rewrite length_app. simpl. lia.
    + by apply Forall_app.
Qed.

(** A turn never removes or reorders the files that were pending.  It
    pushes at most one file per chunk and one more at the end, and every
    file it pushes has trimmed content and a full path made from its name
    and the current directory. *)
Theorem sendMessage_pushes (d : jstring) (chunks : list jstring)
    (ending : StreamEnd) (g : Globals) :
  exists new,
    pendingFiles (sendMessage' d chunks ending g).1 = pendingFiles g ++ new /\
    (length new <= length chunks + 1)%nat /\
    Forall (pushed_by d) new.
Proof.
  unfold Extractor.sendMessage.
  destruct (fold_consume_step chunks (new_CodeExtractor d) g)
    as (Hd & new & H & Hl & Hp).
  destruct (fold_left consume' chunks (new_CodeExtractor d, g)) as [e1 g1].
  simpl in *. unfold Extractor.flush. simpl. rewrite H.
  destruct (inBlock e1 && truthy_str (code e1)).
  - exists (new ++ [pending_of' (dir e1) (filename e1) (code e1 ++ buffer e1)]).
    split_and!.
    + by rewrite app_assoc.
    + rewrite length_app. simpl. lia.
    + apply Forall_app. split; [done|].
      apply Forall_singleton. rewrite Hd. apply pushed_by_pending_of.
  - exists new. split_and!; [done|lia|done].
Qed.

(** [process] inside a block, when the buffer with the chunk holds three
    backticks, first at [k]. *)
Lemma process_closes (e : CodeExtractor) (c : jstring)
    (pending : list PendingFile.t) (k : nat) :
  inBlock e = true ->
  find_sub (buffer e ++ c) fence3 = Some k ->
  process' e c pending
  = ({| buffer := drop (k + 3) (buffer e ++ c); inBlock := false;
        filename := filename e; code := code e ++ take k (buffer e ++ c);
        dir := dir e |},
     pending ++ [pending_of' (dir e) (filename e)
                   (code e ++ take k (buffer e ++ c))]).
Proof.
  intros He Hk. unfold Extractor.process, indexOf. rewrite He, Hk. cbn [negb].
  destruct (Z.eqb_spec (Z.of_nat k) (-1)) as [|_]; [lia|]. cbn [negb].
  rewrite slice_upto_nat.
  replace (Z.of_nat k + 3) with (Z.of_nat (k + 3)) by lia.
  by rewrite slice_from.
Qed.

(** [process] inside a block, when they do not: all but the last 10
    characters move to [code]. *)
Lemma process_stays_open (e : CodeExtractor) (c : jstring)
    (pending : list PendingFile.t) :
  inBlock e = true ->
  find_sub (buffer e ++ c) fence3 = None ->
  process' e c pending
  = ({| buffer := drop (length (buffer e ++ c) - 10) (buffer e ++ c);
        inBlock := true; filename := filename e;
        code := code e ++ take (length (buffer e ++ c) - 10) (buffer e ++ c);
        dir := dir e |}, pending).
Proof.
  intros He Hk. unfold Extractor.process, indexOf. rewrite He, Hk. cbn [negb Z.eqb].
  destruct (Nat.ltb_spec 10 (length (buffer e ++ c))) as [Hlong|Hshort].
  - by rewrite (slice_tail _ 10), (slice_head _ 10) by lia.
  - replace (length (buffer e ++ c) - 10)%nat with 0%nat by lia.
    by rewrite take_0, drop_0, app_nil_r.
Qed.

(** Inside a block the closing fence is found wherever the chunks are cut:
    when the text still to be read (the buffer and the chunks to come)
    holds three backticks, first at position [i], the next file pushed has
    as content what [code] holds and the text up to [i], trimmed. *)
Lemma fold_consume_closes (chunks : list jstring) (e : CodeExtractor)
    (g : Globals) (i : nat) :
  inBlock e = true ->
  chunks <> [] ->
  find_sub (buffer e ++ concat chunks) fence3 = Some i ->
  exists later,
    pendingFiles (fold_left consume' chunks (e, g)).2
    = pendingFiles g ++
      pending_of' (dir e) (filename e)
        (code e ++ take i (buffer e ++ concat chunks)) :: later.
Proof.
  revert e g i. induction chunks as [|c chunks IH]; intros e g i He Hne Hi; [done|].
  clear Hne. cbn [fold_left concat] in *. rewrite app_assoc in Hi |- *.
  rewrite consume_eq.
  destruct (find_sub (buffer e ++ c) fence3) as [k|] eqn:Hk.
  - (* the fence is in the buffer with this chunk *)
    pose proof (find_sub_app_l _ (concat chunks) _ _ Hk) as Hk'.
    assert (i = k) as -> by congruence.
    rewrite (process_closes _ _ _ _ He Hk). cbn [fst snd].
    match goal with |- context [fold_left _ _ (?e', ?g')] =>
      destruct (fold_consume_step chunks e' g') as (_ & new & H & _) end.
    rewrite H. cbn [pendingFiles]. exists new.
    rewrite <- app_assoc. cbn [app]. do 3 f_equal.
    apply find_sub_Some in Hk as (_ & Hle & _). by rewrite (take_app_le _ (concat chunks)).
  - (* not yet: the tail of the buffer is kept *)
    pose proof (find_sub_beyond _ _ _ _ Hk Hi) as Hby. simpl in Hby.
    assert (chunks <> []) as Hne.
    { intros ->. simpl in Hi. rewrite app_nil_r in Hi. congruence. }
    rewrite (process_stays_open _ _ _ He Hk). cbn [fst snd].
    set (buf := buffer e ++ c) in *. set (n := (length buf - 10)%nat).
    match goal with |- context [fold_left _ _ (?e', ?g')] =>
      destruct (IH e' g' (i - n)%nat) as [later Hl] end; [done|done| |].
    + cbn [buffer]. rewrite <- drop_app_le by lia.
      apply find_sub_drop; [done|lia].
    + exists later. rewrite Hl. cbn [pendingFiles dir filename code buffer].
      do 3 f_equal. rewrite <- app_assoc. f_equal.
      rewrite <- drop_app_le by lia.
      rewrite <- (take_app_le buf (concat chunks)) by lia.
      rewrite take_take_drop. f_equal. lia.
Qed.

(** Inside a block the closing fence is found wherever the chunks are cut:
    when the text still to be read (the buffer and the chunks to come, at
    least one) holds three backticks, first at position [i], the next file
    pushed has as content what [code] holds and the text up to [i],
    trimmed. *)
Theorem block_closes_at_first_fence (chunks : list jstring) (e : CodeExtractor)
    (g : Globals) (i : nat) :
  inBlock e = true ->
  chunks <> [] ->
  find_sub (buffer e ++ concat chunks) fence3 = Some i ->
  exists later,
    pendingFiles (fold_left consume' chunks (e, g)).2
    = pendingFiles g ++
      {| PendingFile.filename := filename e;
         PendingFile.content := trim (code e ++ take i (buffer e ++ concat chunks));
         PendingFile.fullPath :=
           if path_isAbsolute (filename e) then filename e
           else path_join (dir e) (filename e) |} :: later.
Proof. apply fold_consume_closes. Qed.

(** The characters of a fence line before its newline. *)
Lemma fence_line_body (tag p : jstring) :
  word_tag tag -> line_path p ->
  fence_line tag p = (fence3 ++ tag ++ COLON :: p) ++ [LF] /\
  Forall (fun c => c <> LF) (fence3 ++ tag ++ COLON :: p).
Proof.
  intros [_ Ht] [_ Hp]. split.
  - unfold fence_line. by list_norm.
  - rewrite !Forall_app, Forall_cons. split_and!; [|  |done|done].
    + repeat constructor; discriminate.
    + eapply Forall_impl; [exact Ht|]. intros c Hc ->. discriminate.
Qed.

(** No match while the leftmost fence line is not complete. *)
Lemma no_match_before_line (T pre tag p post buf rest : jstring) :
  leftmost_fence T pre tag p post ->
  T = buf ++ rest ->
  (length buf < length pre + length (fence_line tag p))%nat ->
  regex_match buf = None.
Proof.
  unfold jstring in *. intros [(HT & Ht & Hp) Hleft] Hbuf Hlen.
  destruct (regex_match buf) as [m|] eqn:Em; [exfalso|done].
  apply regex_match_Some in Em as (j & Hj & _).
  apply fence_at_drop in Hj as (tag' & p' & post' & (Hb & Ht' & Hp') & _).
  assert (fence_occurs T (take j buf) tag' p' (post' ++ rest)) as Hocc.
  { split_and!; [|done..]. rewrite Hbuf, Hb at 1. by list_norm. }
  apply Hleft in Hocc.
  destruct (fence_line_body tag p Ht Hp) as [El Hno].
  destruct (fence_line_body tag' p' Ht' Hp') as [El' _].
  remember (fence3 ++ tag ++ COLON :: p) as b eqn:Eb.
  remember (fence3 ++ tag' ++ COLON :: p') as b' eqn:Eb'.
  clear Eb Eb'.
  remember (length (take j buf) + length b')%nat as q eqn:Eq.
  assert (T !! q = Some LF) as Hq.
  { rewrite Hbuf, Hb, El'. list_norm.
    rewrite app_assoc. rewrite lookup_app_r by (rewrite length_app; lia).
    replace (q - _)%nat with 0%nat by (rewrite length_app; lia). done. }
  assert (q + 1 <= length buf)%nat as Hqb.
  { apply (f_equal length) in Hb. rewrite El', !length_app in Hb.
    simpl in Hb. lia. }
  rewrite El, length_app in Hlen. simpl in Hlen.
  rewrite HT, El in Hq. list_norm_in Hq.
  rewrite lookup_app_r in Hq by lia.
  rewrite lookup_app_l in Hq by lia.
  rewrite Forall_lookup in Hno. by apply Hno in Hq.
Qed.

(** The leftmost fence line of a text is that of every prefix that
    holds it whole. *)
Lemma leftmost_fence_prefix (T pre tag p post buf rest : jstring) :
  leftmost_fence T pre tag p post ->
  T = buf ++ rest ->
  (length pre + length (fence_line tag p) <= length buf)%nat ->
  leftmost_fence buf pre tag p
    (drop (length pre + length (fence_line tag p)) buf) /\
  post = drop (length pre + length (fence_line tag p)) buf ++ rest.
Proof.
  intros [(HT & Ht & Hp) Hleft] Hbuf Hlen.
  assert (buf = pre ++ fence_line tag p
                 ++ drop (length pre + length (fence_line tag p)) buf) as Eb.
  { rewrite <- (take_drop (length pre + length (fence_line tag p)) buf) at 1.
    rewrite app_assoc. f_equal.
    rewrite <- (take_app_le buf rest) by lia. rewrite <- Hbuf, HT.
    rewrite app_assoc, take_app_length'; [done|]. by rewrite length_app. }
  split.
  - split; [by split_and!|].
    intros pre' tag' p' post' (Hb' & Ht' & Hp').
    apply (Hleft pre' tag' p' (post' ++ rest)). split_and!; [|done..].
    rewrite Hbuf, Hb' at 1. by list_norm.
  - rewrite Hbuf in HT. rewrite Eb in HT at 1. list_norm_in HT.
    apply app_inv_head in HT. apply app_inv_head in HT. done.
Qed.

(** While scanning a text of at most 100 characters that holds no fence
    line, the buffer is the text read so far. *)
Lemma fold_consume_scanning_short (chunks : list jstring) (e : CodeExtractor)
    (g : Globals) :
  inBlock e = false ->
  ~ contains_fence (buffer e ++ concat chunks) ->
  (length (buffer e ++ concat chunks) <= 100)%nat ->
  fold_left consume' chunks (e, g)
  = ({| buffer := buffer e ++ concat chunks; inBlock := false;
        filename := filename e; code := code e; dir := dir e |},
     {| pendingFiles := pendingFiles g; stdout := stdout g ++ concat chunks |}).
Proof.
  revert e g. induction chunks as [|c chunks IH]; intros e g He Hno Hlen.
  - simpl. rewrite !app_nil_r. destruct e, g. simpl in *. by subst.
  - cbn [fold_left concat] in *. rewrite consume_eq.
    rewrite app_assoc in Hno, Hlen.
    assert (regex_match (buffer e ++ c) = None) as Hm.
    { destruct (regex_match (buffer e ++ c)) eqn:Em; [|done].
      exfalso. apply Hno.
      apply (contains_fence_app [] (buffer e ++ c) (concat chunks)).
      apply regex_match_contains. eauto. }
    unfold Extractor.process. rewrite He, Hm. cbn [negb fst snd].
    rewrite length_app in Hlen.
    destruct (Nat.ltb_spec 100 (length (buffer e ++ c))) as [H|_]; [lia|].
    rewrite IH; cbn [buffer inBlock]; [|done|done|rewrite length_app; lia].
    cbn [filename code dir pendingFiles stdout]. by rewrite <- !app_assoc.
Qed.

(** [process] while scanning, when the buffer with the chunk holds a
    fence line. *)
Lemma process_opens (e : CodeExtractor) (c : jstring)
    (pending : list PendingFile.t) (pre tag p post : jstring) :
  inBlock e = false ->
  leftmost_fence (buffer e ++ c) pre tag p post ->
  process' e c pending
  = ({| buffer := post; inBlock := true; filename := trim p; code := [];
        dir := dir e |}, pending).
Proof.
  intros He Hl.
  destruct (leftmost_fence_match _ _ _ _ _ Hl) as (Hm & Hi & Hd).
  unfold Extractor.process. rewrite He. cbn [negb]. rewrite Hm. cbn [m0 m2].
  by rewrite Hi, <- Nat2Z.inj_add, slice_from, Hd.
Qed.

(** A block is extracted wherever the response is cut, under three
    conditions: its fence line, the leftmost of the response, ends within
    the first 100 characters; at least one chunk follows the chunk that
    completes the fence line; and the first three backticks after the
    fence line are the closing fence.  The first file pushed then has the
    trimmed path as name and the trimmed text between the fences as
    content. *)
Theorem block_extracted (d : jstring) (cs1 : list jstring) (c : jstring)
    (cs2 : list jstring) (ending : StreamEnd) (g : Globals)
    (pre tag p body post : jstring) :
  leftmost_fence (concat (cs1 ++ c :: cs2)) pre tag p (body ++ fence3 ++ post) ->
  (length pre + length (fence_line tag p) <= 100)%nat ->
  find_sub (body ++ fence3 ++ post) fence3 = Some (length body) ->
  (length (concat cs1) < length pre + length (fence_line tag p))%nat ->
  (length pre + length (fence_line tag p) <= length (concat cs1 ++ c))%nat ->
  cs2 <> [] ->
  exists later,
    pendingFiles (sendMessage' d (cs1 ++ c :: cs2) ending g).1
    = pendingFiles g ++
      {| PendingFile.filename := trim p;
         PendingFile.content := trim body;
         PendingFile.fullPath :=
           if path_isAbsolute (trim p) then trim p else path_join d (trim p) |}
      :: later.
Proof.
  intros Hl H100 Hclose Hbefore Hafter Hcs2.
  assert (concat (cs1 ++ c :: cs2) = concat cs1 ++ c ++ concat cs2) as ET.
  { by rewrite concat_app. }
  (* the chunks before the fence line is complete *)
  assert (regex_match (concat cs1) = None) as Hm1.
  { eapply no_match_before_line; [exact Hl|by rewrite ET|done]. }
  assert (~ contains_fence (concat cs1)) as Hno1.
  { intros Hc. apply regex_match_contains in Hc as [m Hm]. congruence. }
  unfold Extractor.sendMessage. rewrite fold_left_app.
  rewrite fold_consume_scanning_short; [|done|done|simpl; lia].
  cbn [fold_left]. rewrite consume_eq.
  (* the chunk that completes it *)
  destruct (leftmost_fence_prefix _ _ _ _ _ (concat cs1 ++ c) (concat cs2) Hl)
    as [Hl2 Hpost]; [by rewrite ET, app_assoc|done|].
  unfold new_CodeExtractor. cbn [buffer filename code dir app pendingFiles].
  erewrite process_opens; [|reflexivity|exact Hl2]. cbn [fst snd].
  (* the chunks after it *)
  match goal with |- context [fold_left _ _ (?e', ?g')] =>
    destruct (fold_consume_closes cs2 e' g' (length body)) as [later Hlater];
    [done|done| |
     destruct (fold_left consume' cs2 (e', g')) as [e3 g3] eqn:E3] end.
  - cbn [buffer]. by rewrite <- Hpost.
  - cbn [snd buffer pendingFiles dir filename code app] in Hlater.
    rewrite <- Hpost in Hlater. rewrite take_app_length in Hlater.
    unfold Extractor.flush. cbn [fst snd pendingFiles]. rewrite Hlater.
    destruct (inBlock e3 && truthy_str (code e3)).
    + eexists. rewrite <- app_assoc. cbn [app]. done.
    + by eexists.
Qed.

End ExtractorStream.

(* ===================================================================== *)
(** ** The frame decoder over a whole stream                             *)
(* ===================================================================== *)

Section DecoderStream.
Import Decoder.

Variable JSNumber : Type.
Variable number_truthy : JSNumber -> bool.
Variable JSON_parse : jstring -> option (JSON JSNumber).

Abbreviation truthy' := (Decoder.truthy JSNumber number_truthy).
Abbreviation on_line' := (Decoder.on_line JSNumber number_truthy JSON_parse).
Abbreviation for_lines' := (Decoder.for_lines JSNumber number_truthy JSON_parse).
Abbreviation read_loop' := (Decoder.read_loop JSNumber number_truthy JSON_parse).
Abbreviation chatStream' := (Decoder.chatStream JSNumber number_truthy JSON_parse).

(** A text is its complete lines followed by its last, open line. *)
Lemma split_decompose (s : jstring) :
  s = frames (complete_lines s) ++ List.last (split s LF) [] /\
  Forall (fun l => LF ∉ l) (split s LF).
Proof.
  unfold complete_lines, frames.
  induction s as [|c s [IH1 IH2]]; cbn [split].
  - split; [done|]. repeat constructor. apply not_elem_of_nil.
  - pose proof (split_nonempty s LF) as Hne.
    case_bool_decide as Hc.
    + subst c. split.
      * destruct (split s LF) as [|h t]; [done|].
        cbn [removelast List.last map concat frame app] in *.
        by rewrite <- IH1.
      * constructor; [apply not_elem_of_nil|done].
    + destruct (split s LF) as [|h t]; [done|].
      apply Forall_cons in IH2 as [Hh Ht]. split.
      * destruct t as [|h' t]; simpl in *; f_equal; exact IH1.
      * constructor; [|done]. by apply not_elem_of_cons.
Qed.

Lemma split_last_no_LF (s : jstring) : LF ∉ List.last (split s LF) [].
Proof.
  destruct (split_decompose s) as [_ H].
  pose proof (split_nonempty s LF) as Hne.
  rewrite (app_removelast_last [] Hne) in H.
  apply Forall_app in H as [_ H]. by inversion H.
Qed.

Lemma complete_lines_no_LF (s : jstring) :
  Forall (fun l => LF ∉ l) (complete_lines s).
Proof.
  destruct (split_decompose s) as [_ H].
  pose proof (split_nonempty s LF) as Hne.
  rewrite (app_removelast_last [] Hne) in H.
  by apply Forall_app in H as [H _].
Qed.

(** The complete lines of a text that goes on are those of its beginning
    and those of the rest, which starts with the open line. *)
Lemma complete_lines_app (a b : jstring) :
  complete_lines (a ++ b)
  = complete_lines a ++ complete_lines (List.last (split a LF) [] ++ b).
Proof.
  destruct (split_decompose a) as [Ha _].
  unfold complete_lines at 1. rewrite Ha at 1. rewrite <- app_assoc.
  rewrite split_frames by apply complete_lines_no_LF.
  rewrite removelast_app by apply split_nonempty. done.
Qed.

Lemma complete_lines_open (s : jstring) : LF ∉ s -> complete_lines s = [].
Proof. intros H. unfold complete_lines. by rewrite split_no_sep. Qed.

Lemma for_lines_app' (a b : list jstring) :
  for_lines' (a ++ b)
  = if (for_lines' a).2 then ((for_lines' a).1, true)
    else ((for_lines' a).1 ++ (for_lines' b).1, (for_lines' b).2).
Proof.
  induction a as [|l a IH]; simpl.
  - by destruct (for_lines' b).
  - destruct (on_line' l); [|done..].
    rewrite IH. destruct (for_lines' a) as [ys []]; simpl; [done|].
    by destruct (for_lines' b).
Qed.

(** The loop decodes the complete lines of the text it was given, up to
    the line [DONE], whatever the fragments are. *)
Lemma read_loop_spec (values : list jstring) (buffer : jstring) (ending : ReadEnd) :
  LF ∉ buffer ->
  read_loop' buffer values ending
  = ((for_lines' (complete_lines (buffer ++ concat values))).1,
     if (for_lines' (complete_lines (buffer ++ concat values))).2 then None
     else end_exn ending).
Proof.
  revert buffer. induction values as [|v values IH]; intros buffer Hb.
  - simpl. rewrite app_nil_r, complete_lines_open by done. by destruct ending.
  - cbn [Decoder.read_loop concat]. rewrite app_assoc.
    rewrite (complete_lines_app (buffer ++ v)).
    fold (complete_lines (buffer ++ v)).
    rewrite for_lines_app'.
    destruct (for_lines' (complete_lines (buffer ++ v))) as [ys []]; cbn [fst snd].
    + done.
    + assert (or_str (List.last (split (buffer ++ v) LF) []) []
              = List.last (split (buffer ++ v) LF) []) as ->.
      { unfold or_str. by destruct (List.last _ _). }
      rewrite IH by apply split_last_no_LF.
      by destruct (for_lines' _) as [ys' []].
Qed.

(** The decoder does not depend on how the transport cuts the stream:
    two sequences of fragments with the same text give the same deltas and
    the same end, and the deltas are those of the complete lines of the
    text. *)
Theorem decoder_fragment_invariant (values1 values2 : list jstring)
    (ending : ReadEnd) :
  concat values1 = concat values2 ->
  chatStream' (Body values1 ending) = chatStream' (Body values2 ending) /\
  (chatStream' (Body values1 ending)).1
  = (for_lines' (complete_lines (concat values1))).1.
Proof.
  intros H. simpl. rewrite !read_loop_spec by apply not_elem_of_nil.
  simpl. by rewrite H.
Qed.

(** A last line that the stream does not end with a newline is never
    decoded. *)
Theorem decoder_drops_open_line (values : list jstring) (tail : jstring) :
  LF ∉ tail ->
  chatStream' (Body (values ++ [tail]) Done) = chatStream' (Body values Done).
Proof.
  intros Ht. simpl. rewrite !read_loop_spec by apply not_elem_of_nil.
  simpl. rewrite concat_app. simpl. rewrite app_nil_r.
  rewrite complete_lines_app, (complete_lines_open (_ ++ tail)).
  - by rewrite app_nil_r.
  - rewrite elem_of_app. intros [H|H]; [|done].
    by apply split_last_no_LF in H.
Qed.

Lemma on_line_yield (line : jstring) (c : JSON JSNumber) :
  on_line' line = Yield _ c ->
  truthy' c = true /\ startsWith line (str "data: ") = true.
Proof.
  unfold Decoder.on_line, Decoder.try_body.
  destruct (startsWith line (str "data: ")); [|done].
  case_bool_decide; [done|].
  destruct (JSON_parse _) as [[]|]; try done;
    match goal with |- context [match ?x with Some _ => _ | None => _ end] =>
      destruct x as [v|]; [|done]; destruct (truthy' v) eqn:E; [|done];
      by intros [= <-] end.
Qed.

Lemma for_lines_truthy (lines : list jstring) :
  Forall (fun c => truthy' c = true) (for_lines' lines).1.
Proof.
  induction lines as [|l lines IH]; simpl; [constructor|].
  destruct (on_line' l) eqn:E; [|done|constructor].
  apply on_line_yield in E as [E _].
  destruct (for_lines' lines). simpl in *. by constructor.
Qed.

(** The decoder never yields a falsy value: no empty string, in
    particular. *)
Theorem decoder_yields_truthy (values : list jstring) (ending : ReadEnd) :
  Forall (fun c => truthy' c = true) (chatStream' (Body values ending)).1.
Proof.
  simpl. rewrite read_loop_spec by apply not_elem_of_nil. simpl.
  apply for_lines_truthy.
Qed.

(** Only the lines that start with [data: ] count: the others can be
    left out. *)
Theorem decoder_ignores_other_lines (lines : list jstring) :
  for_lines' (filter (fun l => startsWith l (str "data: ") = true) lines)
  = for_lines' lines.
Proof.
  induction lines as [|l lines IH]; [done|].
  rewrite filter_cons. case_decide as Hd.
  - cbn [Decoder.for_lines]. by rewrite IH.
  - rewrite IH. cbn [Decoder.for_lines]. unfold Decoder.on_line at 1.
    destruct (startsWith l (str "data: ")); [done|]. done.
Qed.

End DecoderStream.

(* ===================================================================== *)
(** ** The conversation over several turns                               *)
(* ===================================================================== *)

Section AgentTurns.
Import Agent.

Variable client : APIClient.

Lemma sendStream_failed (a : CodingAgent) (userMessage : jstring) :
  heap_ok a ->
  (sendStream client a userMessage).2 <> Completed ->
  conversationHistory (sendStream client a userMessage).1.1 = conversationHistory a.
Proof.
  intros Hok. unfold sendStream.
  destruct (chatStream client _) as [chunks [|err]]; [done|]. intros _. simpl.
  rewrite indexOf_obj_last by (by apply heap_ok_fresh).
  destruct (Z.eqb_spec (Z.of_nat (length (conversationHistory a))) (-1)); [lia|].
  simpl. apply splice1_last.
Qed.

Lemma sendStream_completed (a : CodingAgent) (userMessage : jstring) :
  (sendStream client a userMessage).2 = Completed ->
  conversationHistory (sendStream client a userMessage).1.1
  = conversationHistory a ++
    {| ref := fresh a; role := user; content := userMessage |} ::
    if truthy_str (concat (sendStream client a userMessage).1.2)
    then [ {| ref := S (fresh a); role := assistant;
              content := concat (sendStream client a userMessage).1.2 |} ]
    else [].
Proof.
  unfold sendStream.
  destruct (chatStream client _) as [chunks [|err]]; [|done]. intros _. simpl.
  destruct (truthy_str (concat chunks)); [|done]. by rewrite <- app_assoc.
Qed.

Lemma send_history (a : CodingAgent) (userMessage : jstring) :
  conversationHistory (send client a userMessage).1
  = match (send client a userMessage).2 with
    | inr response =>
        conversationHistory a ++
        [ {| ref := fresh a; role := user; content := userMessage |};
          {| ref := S (fresh a); role := assistant; content := response |} ]
    | inl _ => conversationHistory a
    end.
Proof.
  unfold send. destruct (chat client _) as [err|response]; simpl.
  - unfold pop. apply removelast_last.
  - by rewrite <- app_assoc.
Qed.

Lemma system_first_app (a : CodingAgent) (h : list Message) (later : list Message) :
  system_first a -> h = conversationHistory a ++ later ->
  exists m rest, h = m :: rest /\ role m = system.
Proof. intros (m & rest & E & Hm) ->. rewrite E. by exists m, (rest ++ later). Qed.

(** The history always starts with a system message: the constructor
    makes it so, and sending (with or without a stream, succeeding or
    failing), clearing and updating the prompt keep it so. *)
Theorem system_message_stays_first (SYSTEM_PROMPT addition userMessage : jstring)
    (a : CodingAgent) :
  heap_ok a -> system_first a ->
  system_first (new_CodingAgent SYSTEM_PROMPT) /\
  system_first (send client a userMessage).1 /\
  system_first (sendStream client a userMessage).1.1 /\
  system_first (clearHistory SYSTEM_PROMPT a) /\
  system_first (updateSystemPrompt SYSTEM_PROMPT addition a).
Proof.
  intros Hok Hs. split_and!.
  - by eexists _, _.
  - unfold system_first. rewrite send_history.
    destruct (send client a userMessage).2; [done|].
    by eapply system_first_app.
  - unfold system_first.
    destruct ((sendStream client a userMessage).2) eqn:E.
    + rewrite sendStream_completed by done. by eapply system_first_app.
    + rewrite sendStream_failed; [done|done|]. by rewrite E.
  - by eexists _, _.
  - destruct Hs as (m & rest & E & Hm). unfold system_first, updateSystemPrompt.
    rewrite E. unfold is_system. rewrite Hm. simpl. by eexists _, _.
Qed.

Lemma count_app (h later : list Message) :
  length (List.filter (fun m => negb (is_system m)) (h ++ later))
  = (length (List.filter (fun m => negb (is_system m)) h)
     + length (List.filter (fun m => negb (is_system m)) later))%nat.
Proof. by rewrite List.filter_app, length_app. Qed.

(** [getMessageCount] after a turn: two more after a successful [send] or
    a stream that completed with text, one more after a stream that
    completed without text, as many as before after a failure; none after
    [clearHistory]. *)
Theorem message_count_after_turn (SYSTEM_PROMPT userMessage : jstring)
    (a : CodingAgent) :
  heap_ok a ->
  getMessageCount (send client a userMessage).1
  = (getMessageCount a
     + match (send client a userMessage).2 with inr _ => 2 | inl _ => 0 end)%nat /\
  getMessageCount (sendStream client a userMessage).1.1
  = (getMessageCount a
     + match (sendStream client a userMessage).2 with
       | Completed =>
           if truthy_str (concat (sendStream client a userMessage).1.2)
           then 2 else 1
       | Failed _ => 0
       end)%nat /\
  getMessageCount (clearHistory SYSTEM_PROMPT a) = 0%nat.
Proof.
  intros Hok. unfold getMessageCount. split_and!.
  - rewrite send_history. destruct (send client a userMessage).2.
    + lia.
    + by rewrite count_app.
  - destruct ((sendStream client a userMessage).2) eqn:E.
    + rewrite sendStream_completed by done. rewrite count_app.
      by destruct (truthy_str _).
    + rewrite sendStream_failed; [lia|done|]. by rewrite E.
  - done.
Qed.

Lemma find_last_assistant (h : list Message) (u m : Message) :
  is_assistant m = true ->
  List.find is_assistant (reverse (h ++ [u; m])) = Some m.
Proof.
  intros Hm. rewrite reverse_app. simpl. by rewrite Hm.
Qed.

Lemma find_after_user (h : list Message) (u : Message) :
  is_assistant u = false ->
  List.find is_assistant (reverse (h ++ [u])) = List.find is_assistant (reverse h).
Proof.
  intros Hu. rewrite reverse_app. simpl. by rewrite Hu.
Qed.

Lemma or_str_empty (s : jstring) : or_str s [] = s.
Proof. by destruct s. Qed.

(** [getLastResponse] after a turn: the response after a successful
    [send], the whole streamed text after a stream that completed with
    text; what it was before after a failure or a stream without text; the
    empty string after [clearHistory]. *)
Theorem last_response_after_turn (SYSTEM_PROMPT userMessage : jstring)
    (a : CodingAgent) :
  heap_ok a ->
  getLastResponse (send client a userMessage).1
  = match (send client a userMessage).2 with
    | inr response => response
    | inl _ => getLastResponse a
    end /\
  getLastResponse (sendStream client a userMessage).1.1
  = match (sendStream client a userMessage).2 with
    | Completed =>
        if truthy_str (concat (sendStream client a userMessage).1.2)
        then concat (sendStream client a userMessage).1.2
        else getLastResponse a
    | Failed _ => getLastResponse a
    end /\
  getLastResponse (clearHistory SYSTEM_PROMPT a) = [].
Proof.
  intros Hok. unfold getLastResponse. split_and!.
  - rewrite send_history. destruct (send client a userMessage).2; [done|].
    rewrite find_last_assistant by done. apply or_str_empty.
  - destruct ((sendStream client a userMessage).2) eqn:E.
    + rewrite sendStream_completed by done.
      destruct (truthy_str _).
      * rewrite find_last_assistant by done. apply or_str_empty.
      * by rewrite find_after_user.
    + rewrite sendStream_failed; [done|done|]. by rewrite E.
  - done.
Qed.

(** [updateSystemPrompt] replaces the addition, it does not pile
    additions up; it touches nothing but the content of the first message;
    and on a history that does not start with a system message it does
    nothing. *)
Theorem update_prompt_replaces (SYSTEM_PROMPT add1 add2 : jstring) (a : CodingAgent) :
  updateSystemPrompt SYSTEM_PROMPT add2 (updateSystemPrompt SYSTEM_PROMPT add1 a)
  = updateSystemPrompt SYSTEM_PROMPT add2 a /\
  tail (conversationHistory (updateSystemPrompt SYSTEM_PROMPT add1 a))
  = tail (conversationHistory a) /\
  getMessageCount (updateSystemPrompt SYSTEM_PROMPT add1 a) = getMessageCount a /\
  (system_first a ->
   (head (conversationHistory (updateSystemPrompt SYSTEM_PROMPT add1 a)))
   ≫= (fun m => Some (content m))
   = Some (SYSTEM_PROMPT ++ [LF; LF] ++ add1)) /\
  (~ system_first a -> updateSystemPrompt SYSTEM_PROMPT add1 a = a).
Proof.
  unfold updateSystemPrompt, getMessageCount, system_first.
  destruct (conversationHistory a) as [|m rest] eqn:E.
  - rewrite E. split_and!; try done. by intros (? & ? & ? & _).
  - destruct (is_system m) eqn:Hm.
    + cbn [conversationHistory]. unfold is_system in *. cbn [role]. rewrite Hm.
      split_and!; try done.
      * simpl. unfold is_system. cbn [role]. by destruct (role m).
      * intros Hn. exfalso. apply Hn. exists m, rest. split; [done|].
        by destruct (role m).
    + rewrite E, Hm. split_and!; try done.
      intros (m' & rest' & [= <- <-] & Hr). unfold is_system in Hm.
      by rewrite Hr in Hm.
Qed.

End AgentTurns.

(* ===================================================================== *)
(** ** Parsing a command line                                            *)
(* ===================================================================== *)

Section ParseFacts.
Import Commands.

Variable inherited_text : jstring -> jstring.

Lemma span_run (f : ascii -> bool) (w rest : jstring) :
  Forall (fun c => f c = true) w ->
  match rest with [] => True | c :: _ => f c = false end ->
  span f (w ++ rest) = (w, rest).
Proof. intros Hw Hr. by apply span_spec. Qed.

Lemma ends_item_head (f : ascii -> bool) (rest : jstring) :
  f SP = false -> ends_item rest ->
  match rest with [] => True | c :: _ => f c = false end.
Proof. intros Hf [->|[r ->]]; done. Qed.

Lemma group_once_stops (rest : jstring) : ends_item rest -> group_once rest = None.
Proof. intros [->|[r ->]]; done. Qed.

Lemma group_once_item (i : Item) (rest : jstring) :
  valid i -> ends_item rest ->
  group_once (render i ++ rest) = Some (render i, rest).
Proof.
  intros Hv Hr. unfold group_once. destruct i as [w|q]; simpl in *.
  - destruct Hv as [Hne Hw].
    rewrite span_run; [|done|by apply ends_item_head].
    by destruct w.
  - rewrite <- app_assoc. cbn [app].
    rewrite (span_run not_quote q (QUOTE :: rest)); [done| |done].
    apply Forall_forall. intros c Hc. unfold not_quote.
    rewrite negb_true_iff, bool_decide_eq_false. by intros ->.
Qed.

Lemma group_plus_item (n : nat) (i : Item) (rest : jstring) :
  valid i -> ends_item rest ->
  group_plus (S n) (render i ++ rest) = (render i, rest).
Proof.
  intros Hv Hr. cbn [group_plus]. rewrite group_once_item by done.
  destruct n; simpl; [by rewrite app_nil_r|].
  rewrite group_once_stops by done. by rewrite app_nil_r.
Qed.

Lemma render_nonempty (i : Item) : valid i -> render i <> [].
Proof. destruct i; [by intros []|done]. Qed.

Lemma match_all_nil (n : nat) : match_all n [] = [].
Proof. by destruct n. Qed.

Lemma match_all_space (n : nat) (r : jstring) :
  match_all (S n) (SP :: r) = match_all n r.
Proof. cbn [match_all length group_plus]. done. Qed.

Lemma match_all_item (n : nat) (i : Item) (rest : jstring) :
  valid i -> ends_item rest ->
  match_all (S n) (render i ++ rest) = render i :: match_all n rest.
Proof.
  intros Hv Hr.
  pose proof (group_plus_item (pred (length (render i ++ rest))) i rest Hv Hr) as H.
  pose proof (render_nonempty i Hv) as Hne.
  destruct (render i) as [|c r] eqn:Er; [done|].
  cbn [match_all app length pred] in *. by rewrite H.
Qed.

(** The matches of a line of arguments separated by single spaces are
    the arguments. *)
Lemma match_all_items (items : list Item) (fuel : nat) :
  Forall valid items ->
  (length (join (map render items) SP) <= fuel)%nat ->
  match_all fuel (join (map render items) SP) = map render items.
Proof.
  intros Hv. revert fuel. induction Hv as [|i items Hi Hv IH]; intros fuel Hf.
  - simpl. apply match_all_nil.
  - pose proof (render_nonempty i Hi) as Hne.
    assert (1 <= length (render i))%nat as Hlen
      by (destruct (render i); [done|simpl; lia]).
    destruct items as [|i' items].
    + simpl in *. destruct fuel as [|n]; [destruct (render i); [done|simpl in Hf; lia]|].
      rewrite <- (app_nil_r (render i)) at 1.
      rewrite match_all_item; [|done|by left]. by rewrite match_all_nil.
    + change (map render (i :: i' :: items))
        with (render i :: map render (i' :: items)) in *.
      rewrite join_cons in Hf |- * by done.
      rewrite length_app in Hf. cbn [length] in Hf.
      destruct fuel as [|n]; [destruct (render i); [done|simpl in Hf; lia]|].
      rewrite match_all_item; [|done|right; eauto]. f_equal.
      destruct n as [|n]; [lia|].
      rewrite match_all_space. apply IH. lia.
Qed.

Lemma tokens_items (items : list Item) :
  Forall valid items -> tokens (join (map render items) SP) = map render items.
Proof. intros H. by apply match_all_items. Qed.

Lemma strip_quotes_value (i : Item) : valid i -> strip_quotes (render i) = value i.
Proof.
  destruct i as [w|q]; simpl.
  - intros [Hne Hw]. unfold strip_quotes.
    assert (forall c, c ∈ w -> c <> QUOTE) as Hq.
    { intros c Hc ->. rewrite Forall_forall in Hw. by specialize (Hw _ Hc). }
    destruct w as [|c r] eqn:Ew; [done|]. rewrite <- Ew in *.
    rewrite bool_decide_eq_false_2 by (apply Hq; subst; left).
    destruct (reverse w) as [|x y] eqn:Er.
    + apply (f_equal reverse) in Er. rewrite reverse_involutive in Er.
      by subst.
    + rewrite bool_decide_eq_false_2; [done|]. apply Hq.
      apply elem_of_reverse. rewrite Er. left.
  - intros Hq. unfold strip_quotes.
    rewrite ?bool_decide_eq_true_2 by done.
    rewrite reverse_app. simpl. rewrite ?bool_decide_eq_true_2 by done.
    apply reverse_involutive.
Qed.

(** The token of [resolveCommand] is the input up to its first space. *)
Lemma resolveCommand_token (tok rest : jstring) :
  SP ∉ tok -> ends_item rest ->
  toLowerCase tok <> str "constructor" ->
  toLowerCase tok <> str "__proto__" ->
  Commands.resolveCommand inherited_text (tok ++ rest)
  = match commandAliases !! toLowerCase tok with
    | Some full => full
    | None => tok
    end ++ rest.
Proof.
  intros Htok Hrest Hc Hp.
  assert (split (tok ++ rest) SP
          = tok :: match rest with [] => [] | _ :: r => split r SP end) as Hsplit.
  { destruct Hrest as [->|[r ->]].
    - rewrite app_nil_r. by apply split_no_sep.
    - by apply split_line. }
  unfold Commands.resolveCommand, get_property. rewrite Hsplit. cbn [hd tl].
  destruct (commandAliases !! toLowerCase tok) as [full|] eqn:Hfull.
  - rewrite (aliases_truthy _ _ Hfull).
    destruct Hrest as [->|[r ->]]; [by rewrite app_nil_r|].
    rewrite join_cons by apply split_nonempty. by rewrite join_split.
  - rewrite bool_decide_eq_false_2; [done|].
    intros Hin. by destruct (inherited_reachable _ Hin).
Qed.

(** Every alias stands for a word. *)
Lemma aliases_words (k v : jstring) :
  commandAliases !! k = Some v -> is_word_text v.
Proof.
  assert (map_Forall (fun _ v => bool_decide (v <> [])
                                 && forallb is_plain v = true) commandAliases) as H.
  { refine (bool_decide_unpack _ _). vm_compute. exact I. }
  intros Hk. apply H in Hk. apply andb_true_iff in Hk as [H1 H2].
  split; [by apply bool_decide_eq_true in H1|].
  apply Forall_forall. intros c Hc. rewrite forallb_forall in H2.
  apply H2. by apply list_elem_of_In.
Qed.

Lemma word_no_space (w : jstring) : is_word_text w -> SP ∉ w.
Proof.
  intros [_ Hw] Hin. rewrite Forall_forall in Hw. by specialize (Hw _ Hin).
Qed.

(** [parseCommand] on a command word followed by arguments, each a word
    or a text between quotes, separated by single spaces: the command is
    the word, replaced by what it is an alias of, in lower case; the
    arguments are the words as written and the quoted texts without their
    quotes, spaces inside included. *)
Theorem parseCommand_items (w : jstring) (items : list Item) :
  is_word_text w ->
  Forall valid items ->
  toLowerCase w <> str "constructor" ->
  toLowerCase w <> str "__proto__" ->
  parseCommand inherited_text (join (w :: map render items) SP)
  = {| command := toLowerCase match commandAliases !! toLowerCase w with
                              | Some full => full
                              | None => w
                              end;
       args := map value items |}.
Proof.
  intros Hw Hitems Hc Hp. unfold parseCommand.
  set (w' := match commandAliases !! toLowerCase w with
             | Some full => full
             | None => w
             end).
  assert (is_word_text w') as Hw'.
  { unfold w'. destruct (commandAliases !! toLowerCase w) eqn:E; [|done].
    by eapply aliases_words. }
  assert (Commands.resolveCommand inherited_text (join (w :: map render items) SP)
          = join (map render (Word w' :: items)) SP) as ->.
  { destruct items as [|i items].
    - simpl. rewrite <- (app_nil_r w) at 1.
      rewrite resolveCommand_token; [by rewrite app_nil_r| |by left|done|done].
      by apply word_no_space.
    - cbn [map]. rewrite !join_cons by done.
      rewrite resolveCommand_token; [done| |right; eauto|done|done].
      by apply word_no_space. }
  rewrite tokens_items by (by constructor).
  cbn [map render tl]. rewrite or_str_empty. f_equal.
  rewrite map_map. apply map_ext_Forall.
  eapply Forall_impl; [exact Hitems|]. apply strip_quotes_value.
Qed.

End ParseFacts.

(* ===================================================================== *)
(** ** Saving the pending files                                          *)
(* ===================================================================== *)

Section PendingFacts.
Import Pending.

Variable answers : nat -> jstring.

(** Once everything is accepted, the loop saves without asking. *)
Lemma fold_step_accepting (files : list PendingFile.t) (st : State) :
  autoAcceptAll st || all st = true ->
  fold_left (step answers) files st
  = {| autoAcceptAll := autoAcceptAll st; all := all st;
       asked := asked st; saved := saved st ++ files |}.
Proof.
  revert st. induction files as [|f files IH]; intros st Hst.
  - simpl. rewrite app_nil_r. by destruct st.
  - cbn [fold_left]. unfold step at 2. rewrite Hst.
    rewrite IH by done. simpl. by rewrite <- app_assoc.
Qed.

(** While the answers are yes or no, every file is asked about and the
    files answered yes are saved. *)
Lemma fold_step_asking (files : list PendingFile.t) (st : State) :
  autoAcceptAll st = false -> all st = false ->
  (forall i, (i < length files)%nat ->
             yes_or_no (choice_of (answers (length (asked st) + i)))) ->
  fold_left (step answers) files st
  = {| autoAcceptAll := false; all := false;
       asked := asked st ++ files;
       saved := saved st ++ kept answers (length (asked st)) files |}.
Proof.
  revert st. induction files as [|f files IH]; intros st Ha Hl Hyn.
  - simpl. rewrite !app_nil_r. destruct st. simpl in *. by subst.
  - cbn [fold_left kept]. unfold step at 2. rewrite Ha, Hl. cbn [orb].
    pose proof (Hyn 0%nat ltac:(simpl; lia)) as H0. rewrite Nat.add_0_r in H0.
    assert (forall st', autoAcceptAll st' = false -> all st' = false ->
              asked st' = asked st ++ [f] ->
              fold_left (step answers) files st'
              = {| autoAcceptAll := false; all := false;
                   asked := asked st ++ f :: files;
                   saved := saved st' ++ kept answers (S (length (asked st))) files |})
      as Hnext.
    { intros st' Ha' Hl' Hk. rewrite IH; [| done | done |].
      - rewrite Hk, length_app, <- app_assoc. simpl.
        by rewrite Nat.add_1_r.
      - intros i Hi. rewrite Hk, length_app. simpl.
        replace (length (asked st) + 1 + i)%nat
          with (length (asked st) + S i)%nat by lia.
        apply Hyn. simpl. lia. }
    destruct H0 as [E|E]; rewrite E.
    + rewrite Hnext by done. simpl. by rewrite <- app_assoc.
    + by rewrite Hnext.
Qed.

Lemma step_accepts (st : State) (f : PendingFile.t) :
  autoAcceptAll st = false -> all st = false ->
  choice_of (answers (length (asked st))) = a \/
  choice_of (answers (length (asked st))) = p ->
  step answers st f
  = {| autoAcceptAll := match choice_of (answers (length (asked st))) with
                        | p => true
                        | _ => false
                        end;
       all := match choice_of (answers (length (asked st))) with
              | a => true
              | _ => false
              end;
       asked := asked st ++ [f];
       saved := saved st ++ [f] |}.
Proof.
  intros Ha Hl Hc. unfold step. rewrite Ha, Hl. cbn [orb].
  by destruct Hc as [E|E]; rewrite E.
Qed.

(** With auto-accept on, [processPending] asks nothing and saves every
    pending file, in order; the list of pending files is empty afterwards
    and auto-accept stays on. *)
Theorem auto_accept_saves_all (files : list PendingFile.t) :
  processPending answers files true
  = {| pendingFiles' := []; autoAcceptAll' := true;
       questions := []; saves := files |}.
Proof.
  unfold processPending. destruct files as [|f files]; [done|].
  by rewrite fold_step_accepting.
Qed.

(** With auto-accept off and every answer read as yes or no, each file
    is asked about, the files answered yes are saved, in order, and
    auto-accept stays off. *)
Theorem yes_no_answers (files : list PendingFile.t) :
  (forall i, (i < length files)%nat -> yes_or_no (choice_of (answers i))) ->
  processPending answers files false
  = {| pendingFiles' := []; autoAcceptAll' := false;
       questions := files; saves := kept answers 0 files |}.
Proof.
  intros H. unfold processPending. destruct files as [|f files]; [done|].
  rewrite fold_step_asking; [done|done|done|exact H].
Qed.

(** With auto-accept off, after yes and no answers for the files
    [before], the answer a or p for the file [f] saves [f] and every file
    after it without another question; p turns auto-accept on for the
    turns to come, a does not. *)
Theorem accept_all_from (before after : list PendingFile.t) (f : PendingFile.t) :
  (forall i, (i < length before)%nat -> yes_or_no (choice_of (answers i))) ->
  choice_of (answers (length before)) = a \/
  choice_of (answers (length before)) = p ->
  processPending answers (before ++ f :: after) false
  = {| pendingFiles' := [];
       autoAcceptAll' := match choice_of (answers (length before)) with
                         | p => true
                         | _ => false
                         end;
       questions := before ++ [f];
       saves := kept answers 0 before ++ f :: after |}.
Proof.
  intros Hyn Hap. unfold processPending.
  destruct (before ++ f :: after) as [|x l] eqn:E; [by destruct before|].
  rewrite <- E. clear E x l.
  rewrite fold_left_app, (fold_step_asking before); [|done|done|exact Hyn].
  cbn [fold_left app]. rewrite step_accepts; [|done|done|exact Hap].
  rewrite fold_step_accepting.
  - simpl. by rewrite <- app_assoc.
  - simpl. by destruct Hap as [E|E]; rewrite E.
Qed.

End PendingFacts.

(* ===================================================================== *)
(** ** The model search box                                              *)
(* ===================================================================== *)

Section ModelSearchFacts.
Import ModelSearch.

Variable cachedModels : list jstring.

Abbreviation consistent' := (consistent cachedModels).
Abbreviation handleKey' := (handleKey cachedModels).
Abbreviation on_data' := (on_data cachedModels).
Abbreviation after_keys' := (after_keys cachedModels).

Lemma render_consistent (st : State) :
  filtered st = matching cachedModels (query st) ->
  (selectedIndex st = 0%nat \/ (selectedIndex st < length (filtered st))%nat) ->
  resolved st = None ->
  consistent' (render st).
Proof.
  intros Hf Hs Hr. unfold consistent, render, maxVisible. simpl. rewrite Hr.
  split_and!; try done.
  - destruct (Nat.ltb_spec (selectedIndex st) (scrollOffset st)); [lia|].
    destruct (Nat.leb_spec (scrollOffset st + 12) (selectedIndex st)); lia.
  - destruct (Nat.ltb_spec (selectedIndex st) (scrollOffset st)); [lia|].
    destruct (Nat.leb_spec (scrollOffset st + 12) (selectedIndex st)); lia.
Qed.

Lemma handleKey_consistent (st : State) (key : jstring) :
  consistent' st -> resolved st = None -> consistent' (handleKey' st key).
Proof.
  intros Hc Hr. pose proof Hc as (Hf & Hs & Hlo & Hhi & _).
  unfold handleKey.
  destruct (_ || _ || _); [done|].
  case_bool_decide.
  { destruct (Nat.ltb_spec 0 (selectedIndex st)); [|done].
    apply render_consistent; simpl; [done|lia|done]. }
  case_bool_decide.
  { destruct (Z.ltb_spec (Z.of_nat (selectedIndex st))
                (Z.of_nat (length (filtered st)) - 1)); [|done].
    apply render_consistent; simpl; [done|lia|done]. }
  destruct (_ || _).
  { unfold consistent, resolve. simpl. by split_and!. }
  destruct (_ || _).
  { destruct (filtered st !! selectedIndex st) as [m|] eqn:Em; [|done].
    destruct (_ && truthy_str m) eqn:Et; [|done].
    unfold consistent, resolve. simpl. split_and!; try done.
    apply andb_true_iff in Et as [_ Et]. by destruct m. }
  destruct (_ || _).
  { destruct (0 <? length (query st))%nat; [|done].
    apply render_consistent; simpl; [done|by left|done]. }
  destruct key as [|c key]; [done|].
  destruct (_ && _); [|done].
  apply render_consistent; simpl; [done|by left|done].
Qed.

Lemma on_data_consistent (st : State) (key : jstring) :
  consistent' st -> consistent' (on_data' st key).
Proof.
  intros Hc. unfold on_data. destruct (resolved st) eqn:Hr; [done|].
  by apply handleKey_consistent.
Qed.

Lemma after_keys_consistent (keys : list jstring) : consistent' (after_keys' keys).
Proof.
  unfold after_keys.
  assert (consistent' (opened cachedModels)) as H0.
  { apply render_consistent; simpl; [done|by left|done]. }
  revert H0. generalize (opened cachedModels).
  induction keys as [|k keys IH]; intros st Hst; [done|].
  simpl. apply IH. by apply on_data_consistent.
Qed.

(** Whatever keys are pressed, the list shown is the list of the models
    that match the query, the selected row exists (or is row 0 of an empty
    list), and it lies inside the window of 12 visible rows. *)
Theorem search_box_consistent (keys : list jstring) :
  filtered (after_keys' keys) = matching cachedModels (query (after_keys' keys)) /\
  (selectedIndex (after_keys' keys) = 0%nat \/
   (selectedIndex (after_keys' keys) < length (filtered (after_keys' keys)))%nat) /\
  (scrollOffset (after_keys' keys) <= selectedIndex (after_keys' keys))%nat /\
  (selectedIndex (after_keys' keys) < scrollOffset (after_keys' keys) + 12)%nat.
Proof.
  destruct (after_keys_consistent keys) as (H1 & H2 & H3 & H4 & _). done.
Qed.

Lemma matching_spec (q m : jstring) :
  m ∈ matching cachedModels q ->
  m ∈ cachedModels /\
  (q <> [] -> includes (toLowerCase m) (toLowerCase q) = true).
Proof.
  unfold matching. destruct q as [|c q]; simpl.
  - done.
  - rewrite !list_elem_of_In, filter_In. intros [H1 H2]. done.
Qed.

(** The model the box resolves with is one of the cached models, it is
    not the empty string, and it matches the query typed, without regard
    to case. *)
Theorem search_box_selects_match (keys : list jstring) (m : jstring) :
  resolved (after_keys' keys) = Some (Some m) ->
  m ∈ cachedModels /\ m <> [] /\
  (query (after_keys' keys) <> [] ->
   includes (toLowerCase m) (toLowerCase (query (after_keys' keys))) = true).
Proof.
  intros Hr. destruct (after_keys_consistent keys) as (Hf & _ & _ & _ & H).
  rewrite Hr in H. destruct H as [Hm Hne].
  apply list_elem_of_lookup_2 in Hm. rewrite Hf in Hm.
  apply matching_spec in Hm as [H1 H2]. done.
Qed.

End ModelSearchFacts.

(* ===================================================================== *)
(** ** Running a script                                                  *)
(* ===================================================================== *)

Section RunnersFacts.
Import Tools Runners.

Variable path_extname : jstring -> jstring.
Variable path_join : jstring -> jstring -> jstring.
Variable existsSync : jstring -> bool.
Variable spawn : jstring -> list jstring -> jstring -> Spawn.
Variable spawn_type_error : jstring.

Abbreviation getRunner' := (getRunner path_extname).
Abbreviation runScript' :=
  (runScript path_extname path_join existsSync spawn spawn_type_error).

Lemma runners_entry (filename ext : jstring) (r : Runner) :
  runners filename !! ext = Some r ->
  last (args r) = Some filename /\
  cmd r ∈ map str ["bun"; "python"; "bash"; "powershell"; "cmd"; "ruby";
                   "go"; "cargo"]%string.
Proof.
  intros H. apply elem_of_list_to_map_2 in H.
  repeat (apply elem_of_cons in H as [H|H];
          [injection H as -> ->; split; [done|];
           apply (bool_decide_unpack _); vm_compute; exact I|]).
  by apply elem_of_nil in H.
Qed.

Lemma dotted_not_inherited (ext : jstring) :
  ext = [] \/ (exists r, ext = "."%char :: r) ->
  toLowerCase ext ∉ Commands.Object_prototype.
Proof.
  intros [->|[r ->]] Hin.
  - revert Hin. apply (bool_decide_unpack _). vm_compute. exact I.
  - unfold Commands.Object_prototype in Hin. cbn [map toLowerCase] in Hin.
    repeat (apply elem_of_cons in Hin as [Hin|Hin]; [discriminate Hin|]).
    by apply elem_of_nil in Hin.
Qed.

(** The runner [getRunner] finds is one of the table: its command is
    one of eight, and its last argument is the file name as it was given;
    nothing inherited is ever returned. *)
Theorem getRunner_runs_the_file (filename : jstring) :
  extname_shape path_extname ->
  match getRunner' filename with
  | Found r =>
      last (args r) = Some filename /\
      cmd r ∈ map str ["bun"; "python"; "bash"; "powershell"; "cmd"; "ruby";
                       "go"; "cargo"]%string
  | Inherited _ => False
  | Null => True
  end.
Proof.
  intros Hshape. unfold getRunner.
  destruct (runners filename !! _) as [r|] eqn:E.
  - by eapply runners_entry.
  - rewrite bool_decide_eq_false_2; [done|].
    apply dotted_not_inherited, Hshape.
Qed.

(** [runScript] never rejects.  Without a runner for the file type, or
    when the file does not exist, it resolves with a failure that names the
    file, and no process is started; otherwise it is [runCommand] of the
    runner in the workspace directory. *)
Theorem runScript_never_rejects (workspaceDir filename : jstring) :
  (forall reason, runScript' workspaceDir filename <> RejectedWith reason) /\
  (getRunner' filename = Null ->
   runScript' workspaceDir filename
   = Fulfilled {| success := false; output := [];
                  error := Some (str "No runner configured for this file type: "
                                 ++ filename) |}) /\
  (getRunner' filename <> Null ->
   existsSync (path_join workspaceDir filename) = false ->
   runScript' workspaceDir filename
   = Fulfilled {| success := false; output := [];
                  error := Some (str "File not found: " ++ filename) |}) /\
  (forall r, getRunner' filename = Found r ->
   existsSync (path_join workspaceDir filename) = true ->
   runScript' workspaceDir filename = runCommand spawn (cmd r) (args r) workspaceDir).
Proof.
  unfold runScript. split_and!.
  - intros reason. destruct (getRunner' filename); [| |done].
    + destruct (existsSync _); simpl; [|done].
      unfold runCommand, executor, try_spawn.
      destruct (spawn _ _ _); simpl; [done|].
      by apply fold_never_rejected.
    + by destruct (existsSync _).
  - by intros ->.
  - intros Hn He. rewrite He. by destruct (getRunner' filename).
  - intros r -> He. by rewrite He.
Qed.

End RunnersFacts.

(* ===================================================================== *)
(** ** The further theorems at concrete inputs                           *)
(* ===================================================================== *)

Section MoreExamples.
Import Extractor Fence.

Abbreviation run_consume := (consume Sample.isAbsolute Sample.join_path).

(** A fence line is the leftmost one when no attempt succeeds before
    it. *)
Lemma leftmost_fence_check (s pre tag p post : jstring) :
  fence_occurs s pre tag p post ->
  forallb (fun j => match fence_at (drop j s) with Some _ => false | None => true end)
          (seq 0 (length pre)) = true ->
  leftmost_fence s pre tag p post.
Proof.
  intros Hocc Hall. split; [done|].
  intros pre' tag' p' post' H'.
  destruct (Nat.le_gt_cases (length pre) (length pre')) as [|Hlt]; [done|].
  rewrite forallb_forall in Hall.
  specialize (Hall (length pre')). rewrite in_seq in Hall.
  rewrite (fence_occurs_drop _ _ _ _ _ H') in Hall.
  discriminate Hall. lia.
Qed.

Lemma scenario_fence :
  leftmost_fence (concat Sample.scenario) (str "Sure, here:
") (str "python") (str "app.py") (str "print(1)
" ++ fence3 ++ str "
Done.").
Proof.
  apply leftmost_fence_check; [|reflexivity].
  split_and!.
  - reflexivity.
  - split; [discriminate|]. apply Forall_forall. intros c Hc.
    revert c Hc. apply Forall_forall. repeat constructor.
  - split; [discriminate|]. repeat (constructor; [discriminate|]). constructor.
Qed.

Lemma block_extracted_witness :
  exists later,
    pendingFiles (sendMessage Sample.isAbsolute Sample.join_path Sample.cwd
                    Sample.scenario Completed Sample.no_files).1
    = {| PendingFile.filename := str "app.py";
         PendingFile.content := str "print(1)";
         PendingFile.fullPath := str "/work/app.py" |} :: later.
Proof.
  destruct (block_extracted Sample.isAbsolute Sample.join_path Sample.cwd
              [ str "Sure, here:
```py" ] (str "thon:app.py
print(1)
") [ str "```
Done." ] Completed Sample.no_files
              (str "Sure, here:
") (str "python") (str "app.py") (str "print(1)
") (str "
Done.") scenario_fence) as [later H].
  - vm_compute. lia.
  - reflexivity.
  - vm_compute. lia.
  - vm_compute. lia.
  - discriminate.
  - exists later. exact H.
Defined.

Lemma block_closes_at_first_fence_witness :
  inBlock Sample.open_block = true /\
  find_sub (buffer Sample.open_block ++ concat [ str "y = 2
``"; str "`
bye" ]) fence3 = Some 15%nat /\
  exists later,
    pendingFiles (fold_left run_consume [ str "y = 2
``"; str "`
bye" ] (Sample.open_block, Sample.no_files)).2
    = {| PendingFile.filename := str "src/f.py";
         PendingFile.content := str "x = 1
print(x)
y = 2";
         PendingFile.fullPath := str "/work/src/f.py" |} :: later.
Proof.
  split; [reflexivity|]. split; [reflexivity|].
  destruct (block_closes_at_first_fence Sample.isAbsolute Sample.join_path
              [ str "y = 2
``"; str "`
bye" ] Sample.open_block Sample.no_files 15 eq_refl ltac:(discriminate) eq_refl)
    as [later H].
  exists later. exact H.
Defined.

Lemma decoder_fragment_invariant_witness :
  concat [ str "data: {}
da"; str "ta: [DONE]
" ] = concat [ str "data: {}
data: [DONE]
" ] /\
  Decoder.chatStream unit (fun _ => true) Sample.parse
    (Decoder.Body [ str "data: {}
da"; str "ta: [DONE]
" ] Decoder.Done)
  = Decoder.chatStream unit (fun _ => true) Sample.parse
      (Decoder.Body [ str "data: {}
data: [DONE]
" ] Decoder.Done).
Proof.
  split; [reflexivity|].
  exact (proj1 (decoder_fragment_invariant unit (fun _ => true) Sample.parse
                  _ _ Decoder.Done eq_refl)).
Defined.

Lemma decoder_drops_open_line_witness :
  (LF ∉ str "data: {}") /\
  Decoder.chatStream unit (fun _ => true) Sample.parse
    (Decoder.Body ([ str "data: null
" ] ++ [ str "data: {}" ]) Decoder.Done)
  = Decoder.chatStream unit (fun _ => true) Sample.parse
      (Decoder.Body [ str "data: null
" ] Decoder.Done).
Proof.
  assert (LF ∉ str "data: {}") as H
    by (apply (bool_decide_unpack _); vm_compute; exact I).
  split; [exact H|].
  exact (decoder_drops_open_line unit (fun _ => true) Sample.parse _ _ H).
Defined.

Lemma agent1_ok : Agent.heap_ok Sample.agent1 /\ Agent.system_first Sample.agent1.
Proof.
  split.
  - unfold Agent.heap_ok. simpl. repeat constructor.
  - by eexists _, _.
Qed.

Lemma system_message_stays_first_witness :
  Agent.heap_ok Sample.agent1 /\ Agent.system_first Sample.agent1 /\
  Agent.system_first
    (Agent.sendStream Sample.failing_client Sample.agent1 (str "fix it")).1.1.
Proof.
  destruct agent1_ok as [H1 H2]. split; [exact H1|]. split; [exact H2|].
  exact (proj1 (proj2 (proj2
    (system_message_stays_first Sample.failing_client (str "You are Cody.") []
       (str "fix it") Sample.agent1 H1 H2)))).
Defined.

Lemma message_count_after_turn_witness :
  Agent.heap_ok Sample.agent1 /\
  Agent.getMessageCount Sample.agent1 = 2%nat /\
  Agent.getMessageCount
    (Agent.sendStream Sample.silent_client Sample.agent1 (str "hm")).1.1 = 3%nat /\
  Agent.getMessageCount
    (Agent.sendStream Sample.failing_client Sample.agent1 (str "hm")).1.1 = 2%nat.
Proof.
  destruct agent1_ok as [H1 _]. split; [exact H1|]. split; [reflexivity|]. split.
  - rewrite (proj1 (proj2 (message_count_after_turn Sample.silent_client []
                             (str "hm") Sample.agent1 H1))). reflexivity.
  - rewrite (proj1 (proj2 (message_count_after_turn Sample.failing_client []
                             (str "hm") Sample.agent1 H1))). reflexivity.
Defined.

Lemma last_response_after_turn_witness :
  Agent.heap_ok Sample.agent1 /\
  Agent.getLastResponse
    (Agent.sendStream Sample.failing_client Sample.agent1 (str "hm")).1.1
  = str "Hello!" /\
  Agent.getLastResponse (Agent.send Sample.silent_client Sample.agent1 (str "hm")).1
  = [].
Proof.
  destruct agent1_ok as [H1 _]. split; [exact H1|]. split.
  - rewrite (proj1 (proj2 (last_response_after_turn Sample.failing_client []
                             (str "hm") Sample.agent1 H1))). reflexivity.
  - rewrite (proj1 (last_response_after_turn Sample.silent_client []
                      (str "hm") Sample.agent1 H1)). reflexivity.
Defined.

Lemma parseCommand_items_witness :
  Commands.is_word_text (str "/LS") /\
  Forall Commands.valid [ Commands.Word (str "src"); Commands.Quoted (str "my file.txt") ] /\
  Commands.parseCommand Sample.inherited_text
    (str "/LS src " ++ Commands.QUOTE :: str "my file.txt" ++ [Commands.QUOTE])
  = {| Commands.command := str "/list";
       Commands.args := [ str "src"; str "my file.txt" ] |}.
Proof.
  assert (Commands.is_word_text (str "/LS")) as Hw.
  { split; [discriminate|]. repeat constructor. }
  assert (Forall Commands.valid
            [ Commands.Word (str "src"); Commands.Quoted (str "my file.txt") ]) as Hi.
  { repeat constructor; try discriminate.
    apply (bool_decide_unpack _). vm_compute. exact I. }
  split; [exact Hw|]. split; [exact Hi|].
  exact (parseCommand_items Sample.inherited_text (str "/LS") _ Hw Hi
           ltac:(discriminate) ltac:(discriminate)).
Defined.

Lemma yes_no_answers_witness :
  (forall i, (i < 2)%nat ->
             Pending.yes_or_no (Pending.choice_of (Sample.answers_no_yes i))) /\
  Pending.processPending Sample.answers_no_yes [Sample.file1; Sample.file2] false
  = {| Pending.pendingFiles' := []; Pending.autoAcceptAll' := false;
       Pending.questions := [Sample.file1; Sample.file2];
       Pending.saves := [Sample.file2] |}.
Proof.
  assert (forall i, (i < 2)%nat ->
            Pending.yes_or_no (Pending.choice_of (Sample.answers_no_yes i))) as H.
  { intros [|[|i]] Hi; [by right|by left|lia]. }
  split; [exact H|].
  exact (yes_no_answers Sample.answers_no_yes [Sample.file1; Sample.file2] H).
Defined.

Lemma accept_all_from_witness :
  Pending.choice_of (Sample.answers_no_all 1) = Pending.a /\
  Pending.processPending Sample.answers_no_all
    [Sample.file1; Sample.file2; Sample.file3] false
  = {| Pending.pendingFiles' := []; Pending.autoAcceptAll' := false;
       Pending.questions := [Sample.file1; Sample.file2];
       Pending.saves := [Sample.file2; Sample.file3] |}.
Proof.
  split; [reflexivity|].
  refine (accept_all_from Sample.answers_no_all [Sample.file1] [Sample.file3]
            Sample.file2 _ (or_introl eq_refl)).
  intros [|i] Hi; [by right|simpl in Hi; lia].
Defined.

Lemma search_box_selects_match_witness :
  ModelSearch.resolved (ModelSearch.after_keys Sample.models Sample.typed)
  = Some (Some (str "claude-3-haiku")) /\
  ModelSearch.query (ModelSearch.after_keys Sample.models Sample.typed) = str "cL" /\
  str "claude-3-haiku" ∈ Sample.models.
Proof.
  split; [reflexivity|]. split; [reflexivity|].
  exact (proj1 (search_box_selects_match Sample.models Sample.typed _ eq_refl)).
Defined.

Lemma sample_extname_shape : Runners.extname_shape Sample.extname.
Proof.
  intros f. induction f as [|c f IH]; [by left|]. simpl.
  destruct (Sample.extname f) as [|x e] eqn:E.
  - case_bool_decide; [subst; right; eauto|by left].
  - destruct IH as [IH|IH]; [done|]. by right.
Qed.

Lemma getRunner_runs_the_file_witness :
  Runners.extname_shape Sample.extname /\
  Runners.getRunner Sample.extname (str "Tools/Build.PS1")
  = Runners.Found {| Runners.cmd := str "powershell";
                     Runners.args := [ str "-File"; str "Tools/Build.PS1" ] |} /\
  last [ str "-File"; str "Tools/Build.PS1" ] = Some (str "Tools/Build.PS1").
Proof.
  split; [exact sample_extname_shape|].
  pose proof (getRunner_runs_the_file Sample.extname (str "Tools/Build.PS1")
                sample_extname_shape) as H.
  assert (Runners.getRunner Sample.extname (str "Tools/Build.PS1")
          = Runners.Found {| Runners.cmd := str "powershell";
                             Runners.args := [ str "-File"; str "Tools/Build.PS1" ] |})
    as E by (vm_compute; reflexivity).
  rewrite E in H. split; [exact E|exact (proj1 H)].
Defined.

End MoreExamples.

(* ===================================================================== *)
(** ** Colour codes in the search box                                    *)
(* ===================================================================== *)

Section AnsiFacts.
Import ModelSearch.

Lemma span_more (f : ascii -> bool) (s t a b : jstring) (c : ascii) :
  span f s = (a, c :: b) -> span f (s ++ t) = (a, c :: b ++ t).
Proof.
  intros H. apply span_spec in H as (-> & Ha & Hc).
  apply span_spec. split_and!; [by rewrite <- app_assoc|done|done].
Qed.

Lemma span_all (f : ascii -> bool) (s t a : jstring) :
  span f s = (a, []) ->
  match t with [] => True | c :: _ => f c = false end ->
  span f (s ++ t) = (a, t).
Proof.
  intros H Ht. apply span_spec in H as (-> & Ha & _). rewrite app_nil_r.
  by apply span_spec.
Qed.

Lemma span_shorter (f : ascii -> bool) (s : jstring) :
  (length (span f s).2 <= length s)%nat.
Proof.
  destruct (span f s) as [a b] eqn:E. apply span_spec in E as (-> & _).
  rewrite length_app. simpl. lia.
Qed.

Lemma ansi_at_shorter (s r : jstring) :
  ansi_at s = Some r -> (length r < length s)%nat.
Proof.
  unfold ansi_at. destruct s as [|e [|b s]]; [done|done|].
  destruct (_ && _); [|done].
  pose proof (span_shorter is_param s) as H.
  destruct (span is_param s).2 as [|m r']; [done|].
  case_bool_decide; [|done]. intros [= <-]. simpl in *. lia.
Qed.

Lemma ansi_at_more (s t r : jstring) :
  ansi_at s = Some r -> ansi_at (s ++ t) = Some (r ++ t).
Proof.
  unfold ansi_at. destruct s as [|e [|b s]]; [done|done|]. cbn [app].
  destruct (_ && _); [|done].
  destruct (span is_param s) as [a [|m r']] eqn:E; [done|]. cbn [snd].
  rewrite (span_more _ _ t _ _ _ E). cbn [snd].
  case_bool_decide; [|done]. by intros [= <-].
Qed.

(** Spaces after a text do not complete a colour code. *)
Lemma ansi_at_spaces (s : jstring) (k : nat) :
  ansi_at s = None -> ansi_at (s ++ repeat SP k) = None.
Proof.
  unfold ansi_at. destruct s as [|e [|b s]]; cbn [app].
  - intros _. by destruct k as [|[|k]].
  - intros _. destruct k as [|k]; [done|]. cbn [repeat].
    by rewrite andb_false_r.
  - destruct (_ && _); [|done].
    destruct (span is_param s) as [a [|m r']] eqn:E; cbn [snd].
    + intros _. rewrite (span_all _ _ (repeat SP k) _ E); [|by destruct k].
      cbn [snd]. by destruct k.
    + rewrite (span_more _ _ (repeat SP k) _ _ _ E). cbn [snd].
      by case_bool_decide.
Qed.

Lemma ansi_at_head (c : ascii) (s : jstring) :
  ESC <> c -> ansi_at (c :: s) = None.
Proof.
  intros H. unfold ansi_at. destruct s as [|b s]; [done|].
  by rewrite bool_decide_eq_false_2.
Qed.

Lemma ansi_at_plain (s : jstring) : ESC ∉ s -> ansi_at s = None.
Proof.
  destruct s as [|c s]; [done|]. intros H.
  apply not_elem_of_cons in H as [H _]. by apply ansi_at_head.
Qed.

(** More fuel than the length changes nothing. *)
Lemma strip_fuel (k k' : nat) (s : jstring) :
  (length s <= k)%nat -> (length s <= k')%nat -> strip k s = strip k' s.
Proof.
  revert k' s. induction k as [|k IH]; intros k' s Hk Hk'.
  - destruct s; [|simpl in Hk; lia]. by destruct k'.
  - destruct k' as [|k'].
    + destruct s; [done|simpl in Hk'; lia].
    + cbn [strip]. destruct (ansi_at s) as [r|] eqn:E.
      * apply ansi_at_shorter in E. apply IH; lia.
      * destruct s as [|c s]; [done|]. simpl in Hk, Hk'.
        f_equal. apply IH; lia.
Qed.

Lemma strip_plain (k : nat) (s : jstring) : ESC ∉ s -> strip k s = s.
Proof.
  revert s. induction k as [|k IH]; intros s Hs; [done|].
  cbn [strip]. rewrite ansi_at_plain by done.
  destruct s as [|c s]; [done|].
  apply not_elem_of_cons in Hs as [_ Hs]. by rewrite IH.
Qed.

Lemma strip_spaces (k : nat) (s : jstring) (j : nat) :
  (length s + j <= k)%nat ->
  strip k (s ++ repeat SP j) = strip k s ++ repeat SP j.
Proof.
  revert s. induction k as [|k IH]; intros s Hk.
  - done.
  - cbn [strip]. destruct (ansi_at s) as [r|] eqn:E.
    + rewrite (ansi_at_more _ _ _ E). apply ansi_at_shorter in E.
      apply IH. lia.
    + rewrite ansi_at_spaces by done.
      destruct s as [|c s].
      * cbn [app]. destruct j as [|j]; [done|]. cbn [repeat].
        f_equal. apply strip_plain.
        clear. induction j as [|j IHj]; [by intros ?%elem_of_nil|].
        cbn [repeat]. by apply not_elem_of_cons.
      * cbn [app]. f_equal. apply IH. simpl in Hk. lia.
Qed.

Lemma stripAnsi_spaces (s : jstring) (j : nat) :
  stripAnsi (s ++ repeat SP j) = stripAnsi s ++ repeat SP j.
Proof.
  unfold stripAnsi. rewrite strip_spaces.
  - f_equal. apply strip_fuel; rewrite ?length_app; lia.
  - rewrite length_app, repeat_length. lia.
Qed.

(** What [padRight] returns shows as wide as asked, or as wide as the
    text when that is wider: colour codes do not count. *)
Theorem padRight_visible_width (s : jstring) (len : Z) :
  Z.of_nat (length (stripAnsi (padRight s len)))
  = Z.max len (Z.of_nat (length (stripAnsi s))) /\
  stripAnsi (padRight s len)
  = stripAnsi s ++ repeat SP (Z.to_nat (len - Z.of_nat (length (stripAnsi s)))).
Proof.
  unfold padRight. rewrite stripAnsi_spaces, length_app, repeat_length.
  split; [lia|]. do 2 f_equal. lia.
Qed.

Lemma strip_plain_app (k : nat) (a r : jstring) :
  ESC ∉ a -> (length (a ++ r) <= k)%nat ->
  strip k (a ++ r) = a ++ strip (k - length a) r.
Proof.
  revert k. induction a as [|c a IH]; intros k Ha Hk.
  - cbn [app length]. by rewrite Nat.sub_0_r.
  - apply not_elem_of_cons in Ha as [Hc Ha].
    destruct k as [|k]; [simpl in Hk; lia|].
    cbn [strip app]. rewrite ansi_at_head by done.
    cbn [length]. rewrite Nat.sub_succ.
    f_equal. apply IH; [done|]. simpl in Hk. lia.
Qed.

Lemma strip_code (k : nat) (code r : jstring) :
  ansi_at (code ++ r) = Some r -> strip (S k) (code ++ r) = strip k r.
Proof. intros H. cbn [strip]. by rewrite H. Qed.

Lemma stripAnsi_highlighted (a b c : jstring) :
  ESC ∉ a -> ESC ∉ b -> ESC ∉ c ->
  stripAnsi (a ++ yellow ++ bright ++ b ++ reset ++ c) = a ++ b ++ c.
Proof.
  intros Ha Hb Hc. unfold stripAnsi.
  rewrite strip_plain_app by done.
  rewrite !length_app.
  replace (length a + (length yellow + (length bright + (length b + (length reset + length c)))) - length a)%nat
    with (S (S (length bright + (length b + (length reset + length c))) + 3))%nat
    by (simpl; lia).
  f_equal.
  rewrite (strip_code _ yellow) by done.
  replace (S (length bright + (length b + (length reset + length c))) + 3)%nat
    with (S (length b + (length reset + length c) + 7))%nat by (simpl; lia).
  rewrite (strip_code _ bright) by done.
  rewrite strip_plain_app; [|done|rewrite length_app; simpl; lia].
  f_equal.
  replace (length b + (length reset + length c) + 7 - length b)%nat
    with (S (length c + 10))%nat by (simpl; lia).
  rewrite (strip_code _ reset) by done.
  by apply strip_plain.
Qed.

Lemma slice_between (s : jstring) (i j : nat) :
  (i <= j)%nat -> (j <= length s)%nat ->
  slice s (Z.of_nat i) (Some (Z.of_nat j)) = take (j - i) (drop i s).
Proof.
  intros Hij Hj. unfold slice, rel_index.
  destruct (Z.ltb_spec (Z.of_nat i) 0); [lia|].
  destruct (Z.ltb_spec (Z.of_nat j) 0); [lia|].
  rewrite !Nat2Z.id, !Nat.min_l by lia. done.
Qed.

Lemma plain_take (s : jstring) (k : nat) : ESC ∉ s -> ESC ∉ take k s.
Proof.
  intros H H'. apply H. rewrite <- (take_drop k s).
  apply elem_of_app. by left.
Qed.

Lemma plain_drop (s : jstring) (k : nat) : ESC ∉ s -> ESC ∉ drop k s.
Proof.
  intros H H'. apply H. rewrite <- (take_drop k s).
  apply elem_of_app. by right.
Qed.

(** On a text without colour codes, highlighting the match changes what
    is sent to the terminal but not what is shown. *)
Theorem highlightMatch_shows_text (text q : jstring) :
  ESC ∉ text -> stripAnsi (highlightMatch text q) = text.
Proof.
  intros Ht. unfold highlightMatch.
  destruct (negb (truthy_str q)); [by apply strip_plain|].
  unfold indexOf.
  destruct (find_sub (toLowerCase text) (toLowerCase q)) as [i|] eqn:E;
    [|by apply strip_plain].
  destruct (Z.eqb_spec (Z.of_nat i) (-1)); [lia|].
  apply find_sub_Some in E as (Hs & Hi & _).
  apply startsWith_length in Hs. rewrite length_drop in Hs.
  unfold toLowerCase in Hs, Hi. unfold jstring in *.
  rewrite ?length_map in Hs, Hi. rewrite ?length_map in Hs.
  rewrite <- Nat2Z.inj_add.
  rewrite slice_upto_nat, (slice_between text i (i + length q)),
    slice_from by lia.
  replace (i + length q - i)%nat with (length q) by lia.
  rewrite stripAnsi_highlighted.
  - rewrite <- drop_drop, take_drop. apply take_drop.
  - by apply plain_take.
  - by apply plain_take, plain_drop.
  - by apply plain_drop.
Qed.

End AnsiFacts.

Section FurtherExamples.
Import ModelSearch.

Lemma highlightMatch_shows_text_witness :
  (ESC ∉ str "GPT-4o") /\
  highlightMatch (str "GPT-4o") (str "pt") <> str "GPT-4o" /\
  stripAnsi (highlightMatch (str "GPT-4o") (str "pt")) = str "GPT-4o".
Proof.
  assert (ESC ∉ str "GPT-4o") as H.
  { intros H. repeat (apply elem_of_cons in H as [H|H]; [discriminate H|]).
    by apply elem_of_nil in H. }
  split_and!; [exact H|by vm_compute|].
  exact (highlightMatch_shows_text (str "GPT-4o") (str "pt") H).
Defined.

Lemma update_prompt_replaces_witness :
  Agent.system_first Sample.agent1 /\
  head (Agent.conversationHistory
          (Agent.updateSystemPrompt (str "You are Cody.") (str "Use tabs.")
             Sample.agent1))
  ≫= (fun m => Some (Agent.content m))
  = Some (str "You are Cody." ++ [LF; LF] ++ str "Use tabs.").
Proof.
  destruct agent1_ok as [_ H]. split; [exact H|].
  exact (proj1 (proj2 (proj2 (proj2
    (update_prompt_replaces (str "You are Cody.") (str "Use tabs.") []
       Sample.agent1)))) H).
Defined.

Lemma runScript_never_rejects_witness :
  Runners.getRunner Sample.extname (str "notes.txt") = Runners.Null /\
  Runners.runScript Sample.extname Sample.join_path (fun _ => true)
    Sample.os_exit (str "TypeError") Sample.cwd (str "notes.txt")
  = Tools.Fulfilled
      {| Tools.success := false; Tools.output := [];
         Tools.error :=
           Some (str "No runner configured for this file type: "
                 ++ str "notes.txt") |}.
Proof.
  assert (Runners.getRunner Sample.extname (str "notes.txt") = Runners.Null)
    as H by (by vm_compute).
  split; [exact H|].
  exact (proj1 (proj2
    (runScript_never_rejects Sample.extname Sample.join_path (fun _ => true)
       Sample.os_exit (str "TypeError") Sample.cwd (str "notes.txt"))) H).
Defined.

End FurtherExamples.
